(** * Thumbnail composition engine: a shallow embedding of
      [scripts/set_thumbnail.py]

    The development follows the layout of the Python module: override
    cascade, asset locator, image transforms, text fitting and the sprite
    placement arithmetic of [main]; then [slugify] of [scripts/_shared.py]
    and [EditorState.set_values] of [scripts/editor_server.py].

    Numeric conventions.  Python [int] is [Z].  Python [float] is modelled
    by the exact rationals [Q]: every arithmetic expression of the source
    is written with the same operators, and the rounding error of binary64
    arithmetic is not represented.  The one exception is the fitted height
    of the asset locator ([scaled_height_for_path] and the comparison made
    on it), whose outcome depends on that rounding: there a [float] is an
    IEEE 754 binary64 number, with the kernel's primitive operations.
    [round] is Python's round-half-to-even.
    Strings are sequences of one-byte characters; [str.lower] and the
    whitespace class act on the ASCII range. *)

From Stdlib Require Import PrimFloat.
From Stdlib Require Uint63 FloatAxioms.
From Stdlib Require Import ZArith QArith Qround Qminmax String Ascii List Lia Bool.
From Stdlib Require Import Lqa Sorted Permutation.
From stdpp Require Import base option list gmap strings.
Import ListNotations.

#[local] Set Warnings "-register-all".
#[local] Set Warnings "-inexact-float".

Local Open Scope string_scope.
Local Open Scope Z_scope.

(** ** Exceptions *)

Inductive exn : Type :=
| RuntimeError (msg : string)
| TypeError
| ValueError
| AttributeError
| ZeroDivisionError
| FileNotFoundError.

Inductive result (A : Type) : Type :=
| Ok (a : A)
| Raise (e : exn).
Arguments Ok {A} a.
Arguments Raise {A} e.

Definition rbind {A B : Type} (r : result A) (k : A -> result B) : result B :=
  match r with
  | Ok a => k a
  | Raise e => Raise e
  end.

Notation "x <-- r ;; k" := (rbind r (fun x => k))
  (at level 60, r at next level, right associativity).


(** ** Python numbers *)

(** [round(q)]: nearest integer, ties to the even one. *)
Definition py_round (q : Q) : Z :=
  let f := Qfloor q in
  let twice_frac := (2 * (q - inject_Z f))%Q in
  match (twice_frac ?= 1)%Q with
  | Lt => f
  | Gt => f + 1
  | Eq => if Z.even f then f else f + 1
  end.

(** [int(q)] on a float truncates toward zero. *)
Definition py_trunc (q : Q) : Z := Z.quot (Qnum q) (Z.pos (Qden q)).

(** [scale_value(value, scale) = int(round(value * scale))]. *)
Definition scale_value (value : Z) (scale : Q) : Z :=
  py_round (inject_Z value * scale)%Q.

(** ** Python strings *)

Definition chars (s : string) : list ascii := list_ascii_of_string s.
Definition str (l : list ascii) : string := string_of_list_ascii l.

Definition code (c : ascii) : N := N_of_ascii c.

Definition is_upper (c : ascii) : bool := ((65 <=? code c) && (code c <=? 90))%N.
Definition is_lower_alnum (c : ascii) : bool :=
  (((97 <=? code c) && (code c <=? 122)) || ((48 <=? code c) && (code c <=? 57)))%N.

Definition lower_char (c : ascii) : ascii :=
  if is_upper c then ascii_of_N (code c + 32) else c.

(** [str.lower()] *)
Definition lower (s : string) : string := str (map lower_char (chars s)).

(** [str.isspace()] on one character of the ASCII range. *)
Definition is_space (c : ascii) : bool :=
  (((9 <=? code c) && (code c <=? 13)) || ((28 <=? code c) && (code c <=? 32)))%N.

(** [normalize_token(text)]:
    [re.sub(r"[^a-z0-9]+", "", text.lower().replace("&", "and"))]. *)
Definition normalize_token (text : string) : string :=
  let lowered := chars (lower text) in
  let replaced :=
    flat_map (fun c => if Ascii.eqb c "&"%char then chars "and" else [c]) lowered in
  str (List.filter is_lower_alnum replaced).

Fixpoint join (sep : string) (l : list string) : string :=
  match l with
  | [] => ""
  | [x] => x
  | x :: rest => x ++ sep ++ join sep rest
  end.

(** ** JSON payloads as produced by [json.load] *)

Inductive json : Type :=
| JNull
| JBool (b : bool)
| JInt (z : Z)
| JFloat (q : Q)
| JStr (s : string)
| JArr (items : list json)
| JObj (members : list (string * json)).

(** [key in block] and [block.get(key)] on a decoded object. *)
Fixpoint jget (members : list (string * json)) (key : string) : option json :=
  match members with
  | [] => None
  | (k, v) :: rest => if String.eqb k key then Some v else jget rest key
  end.

Definition jhas (members : list (string * json)) (key : string) : bool :=
  match jget members key with Some _ => true | None => false end.

(** [value.get(key)] with the default [None]. *)
Definition jget_none (members : list (string * json)) (key : string) : json :=
  match jget members key with Some v => v | None => JNull end.

(** Python truthiness of a decoded JSON value. *)
Definition truthy (j : json) : bool :=
  match j with
  | JNull => false
  | JBool b => b
  | JInt z => negb (Z.eqb z 0)
  | JFloat q => negb (Qeq_bool q 0)
  | JStr s => negb (String.eqb s "")
  | JArr l => match l with [] => false | _ => true end
  | JObj m => match m with [] => false | _ => true end
  end.

(** The built-in parsers behind [float(str)] and [int(str)] are part of
    the Python runtime; they are taken as parameters. *)
Record str_parsers : Type := {
  float_of_str : string -> option Q;
  int_of_str : string -> option Z
}.

(** [float(x)] *)
Definition py_float (P : str_parsers) (j : json) : result Q :=
  match j with
  | JInt z => Ok (inject_Z z)
  | JFloat q => Ok q
  | JBool b => Ok (if b then 1%Q else 0%Q)
  | JStr s => match float_of_str P s with Some q => Ok q | None => Raise ValueError end
  | _ => Raise TypeError
  end.

(** [int(x)] *)
Definition py_int (P : str_parsers) (j : json) : result Z :=
  match j with
  | JInt z => Ok z
  | JFloat q => Ok (py_trunc q)
  | JBool b => Ok (if b then 1 else 0)
  | JStr s => match int_of_str P s with Some z => Ok z | None => Raise ValueError end
  | _ => Raise TypeError
  end.

(** ** Override cascade *)

(** Values held by an override block. *)
Inductive pyval : Type :=
| VInt (z : Z)
| VFloat (q : Q)
| VBool (b : bool).

(** [int(v)] on a value of an override block. *)
Definition int_of_val (v : pyval) : Z :=
  match v with
  | VInt z => z
  | VFloat q => py_trunc q
  | VBool b => if b then 1 else 0
  end.

(** An override set: [{"defaults": {...}, "characters": {name: {"base":
    {...}, "left": {...}, "right": {...}}}}]. *)
Record overrides : Type := {
  defaults : gmap string pyval;
  characters : gmap string (gmap string (gmap string pyval))
}.

Definition default_block : gmap string pyval :=
  <["offset_y" := VInt 0]> (<["offset_x" := VInt 0]> (<["scale" := VFloat 1]> ∅)).

(** One iteration of the loop of [parse_override_block]. *)
Definition parse_key (members : list (string * json)) (allow_missing : bool)
    (key : string) (default_value : json) (caster : json -> result pyval)
    (acc : gmap string pyval) : result (gmap string pyval) :=
  if allow_missing && negb (jhas members key) then Ok acc
  else
    v <-- caster (match jget members key with Some j => j | None => default_value end) ;;
    Ok (<[key := v]> acc).

Definition parse_override_block (P : str_parsers) (block : json)
    (allow_missing : bool) : result (gmap string pyval) :=
  match block with
  | JObj members =>
      r1 <-- parse_key members allow_missing "scale" (JFloat 1)
               (fun j => q <-- py_float P j ;; Ok (VFloat q)) ∅ ;;
      r2 <-- parse_key members allow_missing "offset_x" (JInt 0)
               (fun j => z <-- py_int P j ;; Ok (VInt z)) r1 ;;
      parse_key members allow_missing "offset_y" (JInt 0)
               (fun j => z <-- py_int P j ;; Ok (VInt z)) r2
  | _ => Ok (if allow_missing then ∅ else default_block)
  end.

Definition merge_key (extra : gmap string pyval) (key : string)
    (merged : gmap string pyval) : gmap string pyval :=
  match extra !! key with
  | Some v => <[key := v]> merged
  | None => merged
  end.

Definition merge_overrides (base extra : gmap string pyval) : gmap string pyval :=
  merge_key extra "offset_y" (merge_key extra "offset_x" (merge_key extra "scale" base)).

(** Positive values move away from center; right side keeps sign, left flips. *)
Definition apply_center_offset (offset_x : Z) (side : string) : Z :=
  if String.eqb (lower side) "right" then offset_x else - offset_x.

(** The body of the [for name, block in ... .items()] loop. *)
Fixpoint load_characters (P : str_parsers) (items : list (string * json))
    (acc : gmap string (gmap string (gmap string pyval)))
    : result (gmap string (gmap string (gmap string pyval))) :=
  match items with
  | [] => Ok acc
  | (name, block) :: rest =>
      match block with
      | JObj members =>
          base <-- parse_override_block P block false ;;
          left <-- parse_override_block P (jget_none members "left") true ;;
          right <-- parse_override_block P (jget_none members "right") true ;;
          load_characters P rest
            (<[normalize_token name :=
                 <["right" := right]> (<["left" := left]> (<["base" := base]> ∅))]> acc)
      | _ => load_characters P rest acc
      end
  end.

(** [load_character_overrides_data]; [payload = None] is [JNull]. *)
Definition load_character_overrides_data (P : str_parsers) (payload : json)
    : result overrides :=
  match payload with
  | JNull => Ok {| defaults := default_block; characters := ∅ |}
  | JObj members =>
      d <-- parse_override_block P (jget_none members "defaults") false ;;
      let chars_value := jget_none members "characters" in
      items <-- (if truthy chars_value
                 then match chars_value with
                      | JObj items => Ok items
                      | _ => Raise AttributeError
                      end
                 else Ok []) ;;
      cs <-- load_characters P items ∅ ;;
      Ok {| defaults := d; characters := cs |}
  | _ => Raise (RuntimeError "character overrides must be an object")
  end.

(** [int(merged.get("offset_x", 0))] *)
Definition get_offset_x (merged : gmap string pyval) : Z :=
  int_of_val (default (VInt 0) (merged !! "offset_x")).

(** [resolve_character_override]; [if not entry] holds for a missing
    entry and for an empty one. *)
Definition resolve_character_override (ov : overrides) (character side : string)
    : gmap string pyval :=
  let merged := defaults ov in
  let no_entry :=
    <["offset_x" := VInt (apply_center_offset (get_offset_x merged) side)]> merged in
  match characters ov !! normalize_token character with
  | None => no_entry
  | Some entry =>
      if decide (entry = ∅) then no_entry
      else
        let merged := merge_overrides merged (default ∅ (entry !! "base")) in
        let offset_x := get_offset_x merged in
        let side_block :=
          if String.eqb (lower side) "left"
          then default ∅ (entry !! "left")
          else default ∅ (entry !! "right") in
        let merged := merge_overrides merged side_block in
        let offset_x :=
          match side_block !! "offset_x" with
          | Some _ => get_offset_x merged
          | None => apply_center_offset offset_x side
          end in
        <["offset_x" := VInt offset_x]> merged
  end.

(** ** Text fitting *)

(** [text.split()]: the maximal runs of non-whitespace characters. *)
Fixpoint split_words (cs : list ascii) (cur : list ascii) : list string :=
  match cs with
  | [] => match cur with [] => [] | _ => [str (rev cur)] end
  | c :: rest =>
      if is_space c
      then match cur with
           | [] => split_words rest []
           | _ => str (rev cur) :: split_words rest []
           end
      else split_words rest (c :: cur)
  end.

Definition split (text : string) : list string := split_words (chars text) [].

Fixpoint drop_while (f : ascii -> bool) (l : list ascii) : list ascii :=
  match l with
  | [] => []
  | c :: rest => if f c then drop_while f rest else l
  end.

(** [s.rstrip()] and [s[:-1]] *)
Definition rstrip (s : string) : string :=
  str (rev (drop_while is_space (rev (chars s)))).

Definition drop_last (s : string) : string := str (removelast (chars s)).

(** [range(start, stop, -2)] *)
Fixpoint range_down2 (start : Z) (n : nat) : list Z :=
  match n with
  | O => []
  | S k => start :: range_down2 (start - 2) k
  end.

Definition py_range_down2 (start stop : Z) : list Z :=
  range_down2 start (Z.to_nat ((start - stop + 1) / 2)).

Definition len {A : Type} (l : list A) : Z := Z.of_nat (length l).

Section TextFitting.

(** The width of the bounding box the font library reports for a text
    drawn with the font of a given size: [text_width(draw, text, font)]
    with [font = ImageFont.truetype(font_path, size)]. *)
Variable text_width : Z -> string -> Z.

(** The [for word in words[1:]] loop of [wrap_text] and what follows it. *)
Fixpoint wrap_loop (font max_width max_lines : Z) (words : list string)
    (lines : list string) (current : string) : option (list string) :=
  match words with
  | [] =>
      let lines := (lines ++ [current])%list in
      if len lines >? max_lines then None else Some lines
  | word :: rest =>
      let candidate := current ++ " " ++ word in
      if text_width font candidate <=? max_width
      then wrap_loop font max_width max_lines rest lines candidate
      else
        let lines := (lines ++ [current])%list in
        let current := word in
        if text_width font current >? max_width then None
        else if len lines >=? max_lines then None
        else wrap_loop font max_width max_lines rest lines current
  end.

Definition wrap_text (text : string) (font max_width max_lines : Z)
    : option (list string) :=
  match split text with
  | [] => Some [""]
  | first :: rest =>
      if text_width font first >? max_width then None
      else wrap_loop font max_width max_lines rest [] first
  end.

(** The [while] loop of [truncate_text]; every iteration removes at least
    one character, so [fuel] iterations suffice for a text of that length. *)
Fixpoint truncate_loop (font max_width : Z) (fuel : nat) (trimmed : string) : string :=
  match fuel with
  | O => trimmed
  | S fuel' =>
      if negb (String.eqb trimmed "")
         && (text_width font (trimmed ++ "...") >? max_width)
      then truncate_loop font max_width fuel' (rstrip (drop_last trimmed))
      else trimmed
  end.

Definition truncate_text (text : string) (font max_width : Z) : string :=
  if text_width font text <=? max_width then text
  else
    let trimmed := truncate_loop font max_width (String.length text) text in
    if String.eqb trimmed "" then text else trimmed ++ "...".

(** The [for size in range(...)] loop of [fit_text]. *)
Fixpoint fit_loop (text : string) (max_width max_lines : Z) (sizes : list Z)
    : option (Z * list string) :=
  match sizes with
  | [] => None
  | size :: rest =>
      match wrap_text text size max_width max_lines with
      | Some lines => Some (size, lines)
      | None => fit_loop text max_width max_lines rest
      end
  end.

(** [fit_text] returns the font, here its size, and the lines.  Every
    size of the range is taken to be one [ImageFont.truetype] can load. *)
Definition fit_text (text : string) (max_size min_size max_width max_lines : Z)
    : Z * list string :=
  match fit_loop text max_width max_lines (py_range_down2 max_size (min_size - 1)) with
  | Some r => r
  | None =>
      match wrap_text text min_size max_width max_lines with
      | Some lines => (min_size, lines)
      | None => (min_size, [truncate_text text min_size max_width])
      end
  end.

End TextFitting.

(** ** Rasters *)

Record rgba : Type := { red : Z; green : Z; blue : Z; alpha : Z }.

(** An RGBA image: its size and its pixels.  Every sprite is converted to
    RGBA when it is opened, so the mode is not represented. *)
Record image : Type := {
  width : Z;
  height : Z;
  pixel : Z -> Z -> rgba
}.

(** A single band, as [image.split()[-1]] returns it. *)
Record band : Type := {
  band_width : Z;
  band_height : Z;
  level : Z -> Z -> Z
}.

Definition MAX_UPSCALE : Q := 16 # 10.

(** The same constant and [RIGHT_SIDE_HEIGHT_RATIO] as the binary64
    numbers that the literals [1.6] and [0.9] denote. *)
Definition MAX_UPSCALE_binary64 : PrimFloat.float := 1.6%float.
Definition RIGHT_SIDE_HEIGHT_RATIO : PrimFloat.float := 0.9%float.

(** [0, 1, ..., n-1] *)
Definition zrange (n : Z) : list Z := map Z.of_nat (seq 0 (Z.to_nat n)).

(** True division of two integers. *)
Definition py_div (a b : Z) : result Q :=
  if Z.eqb b 0 then Raise ZeroDivisionError else Ok (inject_Z a / inject_Z b)%Q.

(** [min(a, b)] on floats. *)
Definition qmin (a b : Q) : Q := if Qle_bool a b then a else b.

(** Binary64 arithmetic.  [float(z)]: exact up to [2^53] in magnitude and
    correctly rounded below [2^63], far above any image or box size. *)
Definition float_of_int (z : Z) : PrimFloat.float :=
  if z <? 0 then PrimFloat.opp (PrimFloat.of_uint63 (Uint63.of_Z (- z)))
  else PrimFloat.of_uint63 (Uint63.of_Z z).

(** True division of two integers, as a binary64 number: the correctly
    rounded quotient. *)
Definition py_truediv (a b : Z) : result PrimFloat.float :=
  if Z.eqb b 0 then Raise ZeroDivisionError
  else Ok (PrimFloat.div (float_of_int a) (float_of_int b)).

(** [min(a, b)]: the second argument is taken only when it is smaller. *)
Definition fmin (a b : PrimFloat.float) : PrimFloat.float :=
  if PrimFloat.ltb b a then b else a.

Definition alpha_band (im : image) : band :=
  {| band_width := width im; band_height := height im;
     level := fun x y => alpha (pixel im x y) |}.

(** [band.getbbox()]: the box around the non-zero levels, right and lower
    edges excluded; [None] for an all-zero band. *)
Definition getbbox (b : band) : option (Z * Z * Z * Z) :=
  let col_hit x :=
    existsb (fun y => negb (Z.eqb (level b x y) 0)) (zrange (band_height b)) in
  let row_hit y :=
    existsb (fun x => negb (Z.eqb (level b x y) 0)) (zrange (band_width b)) in
  match List.filter col_hit (zrange (band_width b)),
        List.filter row_hit (zrange (band_height b)) with
  | c :: cs, r :: rs =>
      Some (fold_right Z.min c cs, fold_right Z.min r rs,
            fold_right Z.max c cs + 1, fold_right Z.max r rs + 1)
  | _, _ => None
  end.

(** [image.crop((left, upper, right, lower))] *)
Definition crop (im : image) (box : Z * Z * Z * Z) : image :=
  let '(x0, y0, x1, y1) := box in
  {| width := x1 - x0; height := y1 - y0;
     pixel := fun x y => pixel im (x + x0) (y + y0) |}.

Definition crop_transparent (im : image) : image :=
  match getbbox (alpha_band im) with
  | Some bbox => crop im bbox
  | None => im
  end.

(** The two [scale = ...] lines of [scale_to_fit]. *)
Definition fit_scale (im : image) (max_width max_height : Z) : result Q :=
  rw <-- py_div max_width (width im) ;;
  rh <-- py_div max_height (height im) ;;
  Ok (qmin (qmin rw rh) MAX_UPSCALE).

Section Imaging.

(** Pixel arithmetic of the imaging library, not part of this repository:
    Lanczos resampling to a new size, the blend of [paste] under a mask
    level, the "over" operator of [alpha_composite], and the parser of
    colour names. *)
Variable lanczos : image -> Z -> Z -> Z -> Z -> rgba.
Variable paste_blend : rgba -> rgba -> Z -> rgba.
Variable over : rgba -> rgba -> rgba.
Variable getrgb : string -> rgba.

(** [image.resize((w, h), Image.LANCZOS)] *)
Definition resize (im : image) (w h : Z) : image :=
  {| width := w; height := h; pixel := lanczos im w h |}.

Definition scale_to_fit (im : image) (max_width max_height : Z) : result image :=
  if (max_width <=? 0) || (max_height <=? 0) then Ok im
  else
    scale <-- fit_scale im max_width max_height ;;
    if Qeq_bool scale 1 then Ok im
    else
      Ok (resize im
            (Z.max 1 (py_round (inject_Z (width im) * scale)%Q))
            (Z.max 1 (py_round (inject_Z (height im) * scale)%Q))).

(** [Image.new("RGBA", (w, h), color)] *)
Definition new_image (w h : Z) (color : rgba) : image :=
  {| width := w; height := h; pixel := fun _ _ => color |}.

(** [dest.paste(src, (x0, y0), mask)] with [mask = src]. *)
Definition paste (dest src : image) (x0 y0 : Z) : image :=
  {| width := width dest; height := height dest;
     pixel := fun x y =>
       let sx := x - x0 in
       let sy := y - y0 in
       if (0 <=? sx) && (sx <? width src) && (0 <=? sy) && (sy <? height src)
       then paste_blend (pixel dest x y) (pixel src sx sy) (alpha (pixel src sx sy))
       else pixel dest x y |}.

Definition clamp (lo hi v : Z) : Z := Z.max lo (Z.min hi v).

(** [band.filter(ImageFilter.MaxFilter(size))]: the largest level in the
    [size] by [size] window around each pixel, edges replicated. *)
Definition max_filter (b : band) (size : Z) : band :=
  let m := size / 2 in
  let offsets := map (fun i => i - m) (zrange (2 * m + 1)) in
  {| band_width := band_width b; band_height := band_height b;
     level := fun x y =>
       fold_right Z.max 0
         (flat_map (fun dx =>
            map (fun dy =>
                   level b (clamp 0 (band_width b - 1) (x + dx))
                           (clamp 0 (band_height b - 1) (y + dy)))
                offsets)
            offsets) |}.

(** [ImageChops.subtract(a, b)] *)
Definition chops_subtract (a b : band) : band :=
  {| band_width := band_width a; band_height := band_height a;
     level := fun x y => clamp 0 255 (level a x y - level b x y) |}.

(** [image.putalpha(mask)] *)
Definition putalpha (im : image) (mask : band) : image :=
  {| width := width im; height := height im;
     pixel := fun x y =>
       let p := pixel im x y in
       {| red := red p; green := green p; blue := blue p; alpha := level mask x y |} |}.

(** [Image.alpha_composite(dst, src)] *)
Definition alpha_composite (dst src : image) : image :=
  {| width := width dst; height := height dst;
     pixel := fun x y => over (pixel dst x y) (pixel src x y) |}.

Definition transparent : rgba := {| red := 0; green := 0; blue := 0; alpha := 0 |}.

(** [apply_character_outline].  [main] refuses to run without Pillow, so
    [ImageFilter] and [ImageChops] are present and the two tests on them
    are decided. *)
Definition apply_character_outline (im : image) (outline_px : Z) (color : string)
    : image :=
  if outline_px <=? 0 then im
  else
    let pad := outline_px in
    let padded := new_image (width im + pad * 2) (height im + pad * 2) transparent in
    let padded := paste padded im pad pad in
    let alpha := alpha_band padded in
    let filter_size := Z.max 3 (pad * 2 + 1) in
    let expanded := max_filter alpha filter_size in
    let outline_mask := chops_subtract expanded alpha in
    let outline := new_image (width padded) (height padded) (getrgb color) in
    let outline := putalpha outline outline_mask in
    alpha_composite outline padded.

(** [float(v)] on a value of an override block. *)
Definition float_of_val (v : pyval) : Q :=
  match v with
  | VInt z => inject_Z z
  | VFloat q => q
  | VBool b => if b then 1%Q else 0%Q
  end.

Definition apply_character_override (im : image) (override : gmap string pyval)
    (scale_x scale_y : Q) : image * Z * Z :=
  let scale := float_of_val (default (VFloat 1) (override !! "scale")) in
  let offset_x :=
    scale_value (int_of_val (default (VInt 0) (override !! "offset_x"))) scale_x in
  let offset_y :=
    scale_value (int_of_val (default (VInt 0) (override !! "offset_y"))) scale_y in
  let im :=
    if negb (Qeq_bool scale 1) then
      resize im (Z.max 1 (py_round (inject_Z (width im) * scale)%Q))
                (Z.max 1 (py_round (inject_Z (height im) * scale)%Q))
    else im in
  (im, offset_x, offset_y).

End Imaging.

(** ** Asset locator *)

(** A file [<stem>.png] of a character directory, with the RGBA image
    that [Image.open(path).convert("RGBA")] yields.  A path returned by
    the locator is represented by the file it names. *)
Record png_file : Type := { stem : string; content : image }.

(** A character directory: its name and its [*.png] files in the order
    [glob] lists them. *)
Record directory : Type := { dir_name : string; png_files : list png_file }.

(** The character root: its path and its sub-directories in the order
    [iterdir] lists them. *)
Record character_root : Type := { root_path : string; subdirs : list directory }.

Definition dir_path (root : character_root) (d : directory) : string :=
  root_path root ++ "/" ++ dir_name d.

(** [sorted(names)] *)
Fixpoint insert_sorted (s : string) (l : list string) : list string :=
  match l with
  | [] => [s]
  | x :: rest => if String.leb s x then s :: l else x :: insert_sorted s rest
  end.

Definition sorted (l : list string) : list string := fold_right insert_sorted [] l.

Definition resolve_character_dir (root : character_root) (character : string)
    : result directory :=
  match List.find (fun d => String.eqb (dir_name d) character) (subdirs root) with
  | Some candidate => Ok candidate
  | None =>
      let target := normalize_token character in
      match List.find (fun d => String.eqb (normalize_token (dir_name d)) target)
                      (subdirs root) with
      | Some path => Ok path
      | None =>
          let available := join ", " (sorted (map dir_name (subdirs root))) in
          Raise (RuntimeError ("Unknown character '" ++ character
                               ++ "'. Available: " ++ available))
      end
  end.

Definition find_image_file (character_dir : directory) (stem_wanted : string)
    : option png_file :=
  match List.find (fun f => String.eqb (stem f) stem_wanted) (png_files character_dir) with
  | Some direct => Some direct
  | None =>
      let target := normalize_token stem_wanted in
      List.find (fun f => String.eqb (normalize_token (stem f)) target)
                (png_files character_dir)
  end.

(** [s.endswith(suffix)] and [s] without its last [n] characters. *)
Definition endswith (s suffix : string) : bool :=
  let n := String.length s in
  let k := String.length suffix in
  (k <=? n)%nat && String.eqb (String.substring (n - k) k s) suffix.

Definition without_last (n : nat) (s : string) : string :=
  String.substring 0 (String.length s - n) s.

Definition available_vs_colors (character_dir : directory) : list string :=
  let colors :=
    flat_map (fun f =>
                if endswith (stem f) " Left" then [without_last 5 (stem f)]
                else if endswith (stem f) " Right" then [without_last 6 (stem f)]
                else [])
             (png_files character_dir) in
  sorted (nodup string_dec colors).

(** [scaled_height_for_path], in binary64: the two divisions, the two
    [min] and the product are each rounded as the interpreter rounds
    them. *)
Definition scaled_height_for_path (path : png_file) (max_width max_height : Z)
    : result PrimFloat.float :=
  let im := crop_transparent (content path) in
  rw <-- py_truediv max_width (width im) ;;
  rh <-- py_truediv max_height (height im) ;;
  let scale := fmin rw rh in
  let scale := fmin scale MAX_UPSCALE_binary64 in
  Ok (PrimFloat.mul (float_of_int (height im)) scale).

(** An optional integer argument is truthy when given and non-zero. *)
Definition given (v : option Z) : option Z :=
  match v with
  | Some z => if Z.eqb z 0 then None else Some z
  | None => None
  end.

Definition color_candidates (color : string) : list string :=
  if String.eqb (normalize_token color) "default" then [color] else [color; "Default"].

(** The hard-coded loop for Roy's right side. *)
Fixpoint roy_loop (character_dir : directory) (candidates : list string)
    : option (png_file * bool * string) :=
  match candidates with
  | [] => None
  | candidate :: rest =>
      match find_image_file character_dir (candidate ++ " Left") with
      | Some left_path => Some (left_path, true, candidate)
      | None => roy_loop character_dir rest
      end
  end.

(** One pass of the main [vs_screen] loop: [Ok (Some r)] when the pass
    returns [r], [Ok None] when it moves on to the next candidate. *)
Definition vs_candidate (character_dir : directory) (side : string)
    (max_width max_height : option Z) (candidate : string)
    : result (option (png_file * bool * string)) :=
  if String.eqb side "Left" then
    match find_image_file character_dir (candidate ++ " Left") with
    | Some path => Ok (Some (path, false, candidate))
    | None => Ok None
    end
  else
    let right_path := find_image_file character_dir (candidate ++ " Right") in
    let left_path := find_image_file character_dir (candidate ++ " Left") in
    mirrored <--
      match right_path, left_path, given max_width, given max_height with
      | Some rp, Some lp, Some mw, Some mh =>
          right_height <-- scaled_height_for_path rp mw mh ;;
          left_height <-- scaled_height_for_path lp mw mh ;;
          Ok (if PrimFloat.ltb right_height
                                 (PrimFloat.mul left_height RIGHT_SIDE_HEIGHT_RATIO)
              then Some (lp, true, candidate) else None)
      | _, _, _, _ => Ok None
      end ;;
    match mirrored with
    | Some r => Ok (Some r)
    | None =>
        match right_path, left_path with
        | Some rp, _ => Ok (Some (rp, false, candidate))
        | None, Some lp => Ok (Some (lp, true, candidate))
        | None, None => Ok None
        end
    end.

Fixpoint vs_loop (character_dir : directory) (side : string)
    (max_width max_height : option Z) (candidates : list string)
    : result (option (png_file * bool * string)) :=
  match candidates with
  | [] => Ok None
  | candidate :: rest =>
      r <-- vs_candidate character_dir side max_width max_height candidate ;;
      match r with
      | Some hit => Ok (Some hit)
      | None => vs_loop character_dir side max_width max_height rest
      end
  end.

(** The loop for asset sets without a left/right split. *)
Fixpoint plain_loop (character_dir : directory) (candidates : list string)
    : option (png_file * bool * string) :=
  match candidates with
  | [] => None
  | candidate :: rest =>
      match find_image_file character_dir candidate with
      | Some path => Some (path, false, candidate)
      | None => plain_loop character_dir rest
      end
  end.

(** [resolve_character_image]; the warnings written to [stderr] are not
    part of the returned value and are left out. *)
Definition resolve_character_image (root : character_root)
    (character color side character_set : string)
    (max_width max_height : option Z) : result (png_file * bool * string) :=
  character_dir <-- resolve_character_dir root character ;;
  let candidates := color_candidates color in
  if String.eqb character_set "vs_screen" then
    let forced :=
      if String.eqb side "Right" && String.eqb (normalize_token character) "roy"
      then roy_loop character_dir candidates else None in
    match forced with
    | Some r => Ok r
    | None =>
        r <-- vs_loop character_dir side max_width max_height candidates ;;
        match r with
        | Some hit => Ok hit
        | None =>
            let available := join ", " (available_vs_colors character_dir) in
            Raise (RuntimeError
                     ("Missing image for " ++ character ++ " (" ++ color ++ " " ++ side
                      ++ ") in " ++ dir_path root character_dir ++ ". "
                      ++ "Available colors: " ++ available))
        end
    end
  else
    match plain_loop character_dir candidates with
    | Some r => Ok r
    | None =>
        let available :=
          join ", " (sorted (map stem (png_files character_dir))) in
        Raise (RuntimeError
                 ("Missing image for " ++ character ++ " (" ++ color ++ ") in "
                  ++ dir_path root character_dir ++ ". "
                  ++ "Available colors: " ++ available))
    end.

(** ** Sprite placement *)

Definition BASE_WIDTH : Z := 1920.
Definition BASE_HEIGHT : Z := 1080.
Definition BASE_BORDER : Z := 50.
Definition BASE_MARGIN_X : Z := 80.
Definition BASE_MARGIN_Y : Z := 60.

(** [parse_character_outline_config] yields these two fields (and a
    colour, which placement does not use). *)
Record outline_config : Type := { enabled : bool; size : Z }.

Record placement : Type := {
  p1_x : Z; p1_y : Z; p2_x : Z; p2_y : Z;
  p1_base_width : Z; p1_base_height : Z;
  p2_base_width : Z; p2_base_height : Z
}.

(** [image.size] *)
Definition image_size (im : image) : Z * Z := (width im, height im).

Section Placement.

Variable lanczos : image -> Z -> Z -> Z -> Z -> rgba.

(** The part of [main] between the size of the base image and the two
    [paste] calls: [width] and [height] are the size of the base image,
    [p1_image] and [p2_image] the sprites after [scale_to_fit]. *)
Definition place_sprites (width height : Z) (outline : outline_config)
    (p1_image p2_image : image) (p1_override p2_override : gmap string pyval)
    : placement :=
  let scale_x := (inject_Z width / inject_Z BASE_WIDTH)%Q in
  let scale_y := (inject_Z height / inject_Z BASE_HEIGHT)%Q in
  let outline_px :=
    if enabled outline then Z.max 0 (scale_value (size outline) scale_y) else 0 in
  let border := scale_value BASE_BORDER scale_y in
  let margin_x := scale_value BASE_MARGIN_X scale_x in
  let margin_y := scale_value BASE_MARGIN_Y scale_y in
  let '(p1_image, p1_offset_x, p1_offset_y) :=
    apply_character_override lanczos p1_image p1_override scale_x scale_y in
  let '(p2_image, p2_offset_x, p2_offset_y) :=
    apply_character_override lanczos p2_image p2_override scale_x scale_y in
  let p1_base_width := fst (image_size p1_image) in
  let p1_base_height := snd (image_size p1_image) in
  let p2_base_width := fst (image_size p2_image) in
  let p2_base_height := snd (image_size p2_image) in
  let outline_offset := if outline_px >? 0 then outline_px else 0 in
  {| p1_x := border + margin_x + p1_offset_x - outline_offset;
     p1_y := height - border - margin_y - p1_base_height + p1_offset_y - outline_offset;
     p2_x := width - border - margin_x - p2_base_width + p2_offset_x - outline_offset;
     p2_y := height - border - margin_y - p2_base_height + p2_offset_y - outline_offset;
     p1_base_width := p1_base_width; p1_base_height := p1_base_height;
     p2_base_width := p2_base_width; p2_base_height := p2_base_height |}.

End Placement.

(** ** The embedding at work *)

Example normalize_token_ex : normalize_token "Dr. Mario & Luigi" = "drmarioandluigi".
Proof. reflexivity. Qed.

Example split_ex : split "  Grand   Finals  of it " = ["Grand"; "Finals"; "of"; "it"].
Proof. reflexivity. Qed.

Example py_range_down2_ex :
  py_range_down2 10 4 = [10; 8; 6] ∧ py_range_down2 9 4 = [9; 7; 5]
  ∧ py_range_down2 4 4 = [].
Proof. repeat split. Qed.

Example py_round_ex :
  py_round (5 # 2) = 2 ∧ py_round (7 # 2) = 4 ∧ py_round (-5 # 2) = -2
  ∧ py_round (26 # 10) = 3.
Proof. repeat split. Qed.

Example scale_value_ex : scale_value 50 (inject_Z 720 / inject_Z 1080) = 33.
Proof. reflexivity. Qed.

Example apply_center_offset_ex :
  apply_center_offset 25 "Right" = 25 ∧ apply_center_offset 25 "Left" = -25.
Proof. split; reflexivity. Qed.

Example merge_overrides_ex :
  merge_overrides default_block (<["mirror" := VBool true]> {[ "scale" := VFloat (3 # 2) ]})
  = <["scale" := VFloat (3 # 2)]> default_block.
Proof. reflexivity. Qed.

(** ** Output names ([_shared.py]) *)

(** [s.lstrip()] and [s.strip()] *)
Definition lstrip (s : string) : string := str (drop_while is_space (chars s)).
Definition strip (s : string) : string := rstrip (lstrip s).

Definition is_ascii (c : ascii) : bool := (code c <? 128)%N.
Definition is_underscore (c : ascii) : bool := Ascii.eqb c "_"%char.

(** [re.sub(r"[^a-z0-9]+", "_", s)]: every maximal run of other
    characters becomes one underscore; [in_run] tells that the run in
    progress has been replaced already. *)
Fixpoint sub_runs (in_run : bool) (cs : list ascii) : list ascii :=
  match cs with
  | [] => []
  | c :: rest =>
      if is_lower_alnum c then c :: sub_runs false rest
      else if in_run then sub_runs true rest
      else "_"%char :: sub_runs true rest
  end.

(** [s.strip("_")] *)
Definition strip_underscores (s : string) : string :=
  str (rev (drop_while is_underscore (rev (drop_while is_underscore (chars s))))).

(** [slugify]; [encode("ascii", "ignore")] drops the characters outside
    the ASCII range. *)
Definition slugify (text : string) : string :=
  let normalized := lower (strip text) in
  let normalized := str (List.filter is_ascii (chars normalized)) in
  let normalized := strip_underscores (str (sub_runs false (chars normalized))) in
  if String.eqb normalized "" then "thumbnail" else normalized.

Example slugify_ex :
  slugify "  Mang0 vs. Zain -- Grand Finals!  " = "mang0_vs_zain_grand_finals"
  ∧ slugify " ?! " = "thumbnail".
Proof. split; reflexivity. Qed.

(** ** The override editor ([editor_server.py]) *)

(** [d[key] = value] and [d.pop(key, None)] on a decoded object: an
    existing key keeps its place, a new one goes last. *)
Fixpoint jset (members : list (string * json)) (key : string) (value : json)
    : list (string * json) :=
  match members with
  | [] => [(key, value)]
  | (k, v) :: rest =>
      if String.eqb k key then (k, value) :: rest else (k, v) :: jset rest key value
  end.

Fixpoint jpop (members : list (string * json)) (key : string)
    : list (string * json) :=
  match members with
  | [] => []
  | (k, v) :: rest =>
      if String.eqb k key then rest else (k, v) :: jpop rest key
  end.

(** [d.setdefault]-like step of [set_values]:
    [if key not in d: d[key] = {}]. *)
Definition ensure_object (members : list (string * json)) (key : string)
    : list (string * json) :=
  if jhas members key then members else jset members key (JObj []).

(** [EditorState.set_values], as a function from the working copy
    [overrides_raw] to its new value.  Indexing or assigning into a value
    that is not an object raises [TypeError].  The call
    [rebuild_overrides()] that follows is [load_character_overrides_data]
    on the result. *)
Definition set_values (overrides_raw : list (string * json))
    (character side : string) (scale : Q) (offset_x raise_val : Z)
    (mirror use_other_side : bool) : result (list (string * json)) :=
  let overrides_raw := ensure_object overrides_raw "characters" in
  match jget_none overrides_raw "characters" with
  | JObj chars =>
      let chars := ensure_object chars character in
      match jget_none chars character with
      | JObj char_block =>
          let side_key := lower side in
          let char_block := ensure_object char_block side_key in
          match jget_none char_block side_key with
          | JObj side_block =>
              let side_block := jset side_block "scale" (JFloat scale) in
              let side_block := jset side_block "offset_x" (JInt offset_x) in
              let side_block := jset side_block "raise" (JInt raise_val) in
              let side_block := jpop side_block "mirror_left" in
              let side_block :=
                if mirror then jset side_block "mirror" (JBool true)
                else jpop side_block "mirror" in
              let side_block :=
                if use_other_side then jset side_block "use_other_side" (JBool true)
                else jpop side_block "use_other_side" in
              let char_block := jset char_block side_key (JObj side_block) in
              let chars := jset chars character (JObj char_block) in
              Ok (jset overrides_raw "characters" (JObj chars))
          | _ => Raise TypeError
          end
      | _ => Raise TypeError
      end
  | _ => Raise TypeError
  end.

Example set_values_ex :
  set_values [] "Fox" "Left" (3 # 2) 40 0 true false
  = Ok [("characters",
         JObj [("Fox",
                JObj [("left",
                       JObj [("scale", JFloat (3 # 2)); ("offset_x", JInt 40);
                             ("raise", JInt 0); ("mirror", JBool true)])])])].
Proof. reflexivity. Qed.

(* ===================================================================== *)
(** * Properties *)
(* ===================================================================== *)

(** ** Override cascade *)

Section Cascade.

Implicit Types (d base extra merged : gmap string pyval) (ov : overrides).

Lemma merge_key_lookup extra key merged k :
  merge_key extra key merged !! k =
    if decide (key = k) then
      match extra !! key with Some v => Some v | None => merged !! k end
    else merged !! k.
Proof.
  unfold merge_key. destruct (extra !! key) eqn:E.
  - rewrite lookup_insert. case_decide; done.
  - case_decide; done.
Qed.

Lemma merge_overrides_offset_x base extra :
  merge_overrides base extra !! "offset_x" =
    match extra !! "offset_x" with Some v => Some v | None => base !! "offset_x" end.
Proof.
  unfold merge_overrides. rewrite !merge_key_lookup.
  repeat case_decide; try done.
Qed.

Lemma merge_overrides_other base extra k :
  k ≠ "scale" → k ≠ "offset_x" → k ≠ "offset_y" →
  merge_overrides base extra !! k = base !! k.
Proof.
  intros. unfold merge_overrides. rewrite !merge_key_lookup.
  repeat case_decide; congruence.
Qed.

Lemma merge_overrides_empty base : merge_overrides base ∅ = base.
Proof. reflexivity. Qed.

(** C1. The [offset_x] of the resolved override.  [left_side] tells which
    of the two sides is asked for.  Without an entry (or with an empty
    one) the defaults' [offset_x] is kept on the right and negated on the
    left.  With an entry whose side block sets [offset_x], that value is
    the result, unflipped; when the side block leaves it unset, the
    [offset_x] of defaults merged with the base block is kept on the right
    and negated on the left. *)
Theorem resolve_offset_x_cascade ov (character side : string) (left_side : bool) :
  lower side = (if left_side then "left" else "right") →
  let entry := characters ov !! normalize_token character in
  let signed (x : Z) := if left_side then - x else x in
  let res := resolve_character_override ov character side in
  ((entry = None ∨ entry = Some ∅) →
     res !! "offset_x" = Some (VInt (signed (get_offset_x (defaults ov)))))
  ∧ (∀ e, entry = Some e → e ≠ ∅ →
       let block := default ∅ (e !! (if left_side then "left" else "right")) in
       let merged_base := merge_overrides (defaults ov) (default ∅ (e !! "base")) in
       (∀ z, block !! "offset_x" = Some (VInt z) →
             res !! "offset_x" = Some (VInt z))
       ∧ (block !! "offset_x" = None →
             res !! "offset_x" = Some (VInt (signed (get_offset_x merged_base))))).
Proof.
  intros Hside entry signed res.
  assert (Hsign : ∀ x, apply_center_offset x side = signed x).
  { intros x. unfold apply_center_offset, signed. rewrite Hside.
    destruct left_side; reflexivity. }
  assert (Hsel : String.eqb (lower side) "left" = left_side).
  { rewrite Hside. destruct left_side; reflexivity. }
  split.
  - intros Hnone. subst res. unfold resolve_character_override.
    fold entry. destruct Hnone as [-> | ->].
    + rewrite lookup_insert_eq, Hsign. reflexivity.
    + rewrite decide_True by done. rewrite lookup_insert_eq, Hsign. reflexivity.
  - intros e He Hne block merged_base. subst res.
    unfold resolve_character_override. fold entry. rewrite He.
    rewrite decide_False by done. rewrite Hsel.
    assert (Hblock : (if left_side then default ∅ (e !! "left")
                      else default ∅ (e !! "right")) = block).
    { unfold block. destruct left_side; reflexivity. }
    rewrite Hblock. fold merged_base. split.
    + intros z Hz. rewrite Hz, lookup_insert_eq.
      unfold get_offset_x. rewrite merge_overrides_offset_x, Hz. reflexivity.
    + intros Hz. rewrite Hz, lookup_insert_eq, Hsign. reflexivity.
Qed.

(** A witness for C1: Marth has a base offset of 30 and a left block that
    pins [offset_x] to 12; Fox has no entry and defaults give 7. *)
Definition sample_overrides : overrides :=
  {| defaults := <["offset_x" := VInt 7]> default_block;
     characters :=
       {[ "marth" :=
            <["left" := {[ "offset_x" := VInt 12 ]}]>
              (<["base" := {[ "offset_x" := VInt 30 ]}]> ∅) ]} |}.

Lemma resolve_offset_x_cascade_witness :
  resolve_character_override sample_overrides "Fox" "Left" !! "offset_x"
    = Some (VInt (-7))
  ∧ resolve_character_override sample_overrides "Marth" "Left" !! "offset_x"
    = Some (VInt 12).
Proof.
  split.
  - apply (proj1 (resolve_offset_x_cascade sample_overrides "Fox" "Left" true
                    eq_refl)).
    left. reflexivity.
  - refine (proj1 (proj2 (resolve_offset_x_cascade sample_overrides "Marth" "Left"
                            true eq_refl) _ eq_refl _) 12 eq_refl).
    vm_compute. discriminate.
Defined.

(** *** What the loader produces *)

Definition has_float d (k : string) : Prop := ∃ q, d !! k = Some (VFloat q).
Definition has_int d (k : string) : Prop := ∃ z, d !! k = Some (VInt z).

(** A block carrying all three keys, as [parse_override_block] returns
    without [allow_missing]. *)
Definition full_block d : Prop :=
  has_float d "scale" ∧ has_int d "offset_x" ∧ has_int d "offset_y".

(** A block carrying only keys that were set, each of its own type. *)
Definition partial_block d : Prop :=
  (d !! "scale" = None ∨ has_float d "scale")
  ∧ (d !! "offset_x" = None ∨ has_int d "offset_x")
  ∧ (d !! "offset_y" = None ∨ has_int d "offset_y").

Lemma full_block_partial d : full_block d → partial_block d.
Proof. intros (? & ? & ?). repeat split; right; assumption. Qed.

Lemma partial_block_empty : partial_block ∅.
Proof. repeat split; left; apply lookup_empty. Qed.

Lemma full_block_default : full_block default_block.
Proof. repeat split; eexists; reflexivity. Qed.

Lemma merge_overrides_key base extra k :
  k = "scale" ∨ k = "offset_x" ∨ k = "offset_y" →
  merge_overrides base extra !! k =
    match extra !! k with Some v => Some v | None => base !! k end.
Proof.
  intros [-> | [-> | ->]]; unfold merge_overrides; rewrite !merge_key_lookup;
    repeat case_decide; try done.
Qed.

Lemma merge_overrides_full base extra :
  full_block base → partial_block extra → full_block (merge_overrides base extra).
Proof.
  intros (Bs & Bx & By) (Es & Ex & Ey).
  unfold full_block, has_float, has_int in *.
  rewrite !merge_overrides_key by tauto.
  repeat split.
  - destruct Es as [-> | [q ->]]; eauto.
  - destruct Ex as [-> | [z ->]]; eauto.
  - destruct Ey as [-> | [z ->]]; eauto.
Qed.

Lemma parse_key_inv members am key dflt caster acc d :
  parse_key members am key dflt caster acc = Ok d →
  (am = true ∧ jhas members key = false ∧ d = acc)
  ∨ (∃ v, caster (match jget members key with Some j => j | None => dflt end) = Ok v
          ∧ d = <[key := v]> acc).
Proof.
  unfold parse_key. destruct am, (jhas members key) eqn:Hh; simpl.
  - destruct (caster _); simpl; [|discriminate]. intros [= <-]. right. eauto.
  - intros [= <-]. left. auto.
  - destruct (caster _); simpl; [|discriminate]. intros [= <-]. right. eauto.
  - destruct (caster _); simpl; [|discriminate]. intros [= <-]. right. eauto.
Qed.

Lemma cast_float_inv P j v :
  (q <-- py_float P j ;; Ok (VFloat q)) = Ok v → ∃ q, v = VFloat q.
Proof. destruct (py_float P j); simpl; [|discriminate]. intros [= <-]. eauto. Qed.

Lemma cast_int_inv P j v :
  (z <-- py_int P j ;; Ok (VInt z)) = Ok v → ∃ z, v = VInt z.
Proof. destruct (py_int P j); simpl; [|discriminate]. intros [= <-]. eauto. Qed.

Lemma parse_override_block_partial P j am d :
  parse_override_block P j am = Ok d → partial_block d.
Proof.
  destruct j; simpl;
    try (intros [= <-]; destruct am;
         [apply partial_block_empty | apply full_block_partial, full_block_default]).
  destruct (parse_key members am "scale" _ _ ∅) as [r1|] eqn:H1; simpl; [|discriminate].
  destruct (parse_key members am "offset_x" _ _ r1) as [r2|] eqn:H2; simpl; [|discriminate].
  intros H3.
  apply parse_key_inv in H1, H2, H3.
  unfold partial_block, has_float, has_int.
  destruct H1 as [(_ & _ & ->) | (v1 & C1 & ->)];
  destruct H2 as [(_ & _ & ->) | (v2 & C2 & ->)];
  destruct H3 as [(_ & _ & ->) | (v3 & C3 & ->)];
  try (apply cast_float_inv in C1 as [q1 ->]);
  try (apply cast_int_inv in C2 as [z2 ->]);
  try (apply cast_int_inv in C3 as [z3 ->]);
  repeat split; simplify_map_eq; eauto.
Qed.

Lemma parse_override_block_full P j d :
  parse_override_block P j false = Ok d → full_block d.
Proof.
  destruct j; simpl; try (intros [= <-]; apply full_block_default).
  destruct (parse_key members false "scale" _ _ ∅) as [r1|] eqn:H1; simpl; [|discriminate].
  destruct (parse_key members false "offset_x" _ _ r1) as [r2|] eqn:H2; simpl; [|discriminate].
  intros H3.
  apply parse_key_inv in H1, H2, H3.
  destruct H1 as [(? & _) | (v1 & C1 & ->)]; [discriminate|].
  destruct H2 as [(? & _) | (v2 & C2 & ->)]; [discriminate|].
  destruct H3 as [(? & _) | (v3 & C3 & ->)]; [discriminate|].
  apply cast_float_inv in C1 as [q1 ->].
  apply cast_int_inv in C2 as [z2 ->].
  apply cast_int_inv in C3 as [z3 ->].
  unfold full_block, has_float, has_int.
  repeat split; simplify_map_eq; eauto.
Qed.

(** Every entry stored by the loader has the three sub-blocks. *)
Definition entry_ok (e : gmap string (gmap string pyval)) : Prop :=
  ∃ b l r, e = <["right" := r]> (<["left" := l]> (<["base" := b]> ∅))
           ∧ full_block b ∧ partial_block l ∧ partial_block r.

Definition entries_ok (cs : gmap string (gmap string (gmap string pyval))) : Prop :=
  ∀ k e, cs !! k = Some e → entry_ok e.

Lemma load_characters_ok P items acc cs :
  entries_ok acc → load_characters P items acc = Ok cs → entries_ok cs.
Proof.
  revert acc. induction items as [|[name block] rest IH]; intros acc Hacc; simpl.
  - intros [= <-]. exact Hacc.
  - destruct block; try (apply IH; exact Hacc).
    destruct (parse_override_block P (JObj members) false) as [b|] eqn:Hb;
      [|discriminate].
    cbn [rbind].
    destruct (parse_override_block P (jget_none members "left") true) as [l|] eqn:Hl;
      [|discriminate].
    cbn [rbind].
    destruct (parse_override_block P (jget_none members "right") true) as [r|] eqn:Hr;
      [|discriminate].
    cbn [rbind].
    apply IH. intros k e. rewrite lookup_insert. case_decide.
    + intros [= <-]. exists b, l, r.
      split; [reflexivity|].
      split; [eapply parse_override_block_full; exact Hb|].
      split; eapply parse_override_block_partial; eassumption.
    + apply Hacc.
Qed.

Lemma load_character_overrides_data_ok P payload ov :
  load_character_overrides_data P payload = Ok ov →
  full_block (defaults ov) ∧ entries_ok (characters ov).
Proof.
  destruct payload; simpl; try discriminate.
  - intros [= <-]. split; [apply full_block_default|]. intros k e. simpl.
    rewrite lookup_empty. discriminate.
  - destruct (parse_override_block P (jget_none members "defaults") false) as [d|] eqn:Hd;
      [|discriminate].
    cbn [rbind].
    match goal with |- (items <-- ?X ;; _) = _ → _ => destruct X as [items|] end;
      [|discriminate].
    cbn [rbind].
    destruct (load_characters P items ∅) as [cs|] eqn:Hcs; [|discriminate].
    cbn [rbind]. intros [= <-]. simpl. split.
    + eauto using parse_override_block_full.
    + eapply load_characters_ok; [|exact Hcs]. intros k e.
      rewrite lookup_empty. discriminate.
Qed.

Lemma insert_offset_x_full d z :
  full_block d → full_block (<["offset_x" := VInt z]> d).
Proof.
  intros (Hs & _ & Hy). unfold full_block, has_float, has_int in *.
  repeat split; simplify_map_eq; eauto.
Qed.

Lemma resolve_character_override_full ov character side :
  full_block (defaults ov) → entries_ok (characters ov) →
  full_block (resolve_character_override ov character side).
Proof.
  intros Hd Hcs. unfold resolve_character_override.
  destruct (characters ov !! normalize_token character) as [e|] eqn:He.
  - case_decide; [apply insert_offset_x_full, Hd|].
    destruct (Hcs _ _ He) as (b & l & r & -> & Hb & Hl & Hr).
    apply insert_offset_x_full, merge_overrides_full.
    + apply merge_overrides_full; [exact Hd|].
      simplify_map_eq. apply full_block_partial, Hb.
    + destruct (String.eqb (lower side) "left"); simplify_map_eq; assumption.
  - apply insert_offset_x_full, Hd.
Qed.

(** *** A configuration that sets none of the three keys *)

Definition block_unset (j : json) : bool :=
  match j with
  | JObj m => negb (jhas m "scale") && negb (jhas m "offset_x") && negb (jhas m "offset_y")
  | _ => true
  end.

Definition character_unset (item : string * json) : bool :=
  match snd item with
  | JObj m =>
      block_unset (JObj m) && block_unset (jget_none m "left")
        && block_unset (jget_none m "right")
  | _ => true
  end.

Definition config_sets_none (payload : json) : bool :=
  match payload with
  | JObj m =>
      block_unset (jget_none m "defaults")
        && match jget_none m "characters" with
           | JObj items => forallb character_unset items
           | _ => true
           end
  | _ => true
  end.

Definition default_entry : gmap string (gmap string pyval) :=
  <["right" := ∅]> (<["left" := ∅]> (<["base" := default_block]> ∅)).

Lemma parse_key_unset members am key dflt caster acc v :
  jhas members key = false → caster dflt = Ok v →
  parse_key members am key dflt caster acc =
    Ok (if am then acc else <[key := v]> acc).
Proof.
  intros Hh Hc. unfold parse_key. rewrite Hh. unfold jhas in Hh.
  destruct (jget members key); [discriminate|].
  destruct am; simpl; [reflexivity|]. rewrite Hc. reflexivity.
Qed.

Lemma parse_override_block_unset P j am :
  block_unset j = true →
  parse_override_block P j am = Ok (if am then ∅ else default_block).
Proof.
  destruct j; simpl; try reflexivity.
  rewrite !andb_true_iff, !negb_true_iff. intros [[Hs Hx] Hy].
  rewrite (parse_key_unset _ _ _ _ _ _ (VFloat 1) Hs eq_refl). cbn [rbind].
  rewrite (parse_key_unset _ _ _ _ _ _ (VInt 0) Hx eq_refl). cbn [rbind].
  rewrite (parse_key_unset _ _ _ _ _ _ (VInt 0) Hy eq_refl).
  destruct am; reflexivity.
Qed.

Definition entries_default (cs : gmap string (gmap string (gmap string pyval))) : Prop :=
  ∀ k e, cs !! k = Some e → e = default_entry.

Lemma load_characters_default P items acc cs :
  forallb character_unset items = true → entries_default acc →
  load_characters P items acc = Ok cs → entries_default cs.
Proof.
  revert acc. induction items as [|[name block] rest IH]; intros acc Hall Hacc; simpl.
  - intros [= <-]. exact Hacc.
  - simpl in Hall. apply andb_true_iff in Hall as [Hb Hrest].
    destruct block; try (apply IH; assumption).
    unfold character_unset in Hb. simpl snd in Hb.
    rewrite !andb_true_iff in Hb. destruct Hb as [[Hb Hl] Hr].
    rewrite (parse_override_block_unset P _ false Hb). cbn [rbind].
    rewrite (parse_override_block_unset P _ true Hl). cbn [rbind].
    rewrite (parse_override_block_unset P _ true Hr). cbn [rbind].
    apply IH; [assumption|]. intros k e. rewrite lookup_insert. case_decide.
    + intros [= <-]. reflexivity.
    + apply Hacc.
Qed.

Lemma load_character_overrides_data_default P payload ov :
  config_sets_none payload = true →
  load_character_overrides_data P payload = Ok ov →
  defaults ov = default_block ∧ entries_default (characters ov).
Proof.
  destruct payload; simpl; try discriminate.
  - intros _ [= <-]. split; [reflexivity|]. intros k e. simpl.
    rewrite lookup_empty. discriminate.
  - rewrite andb_true_iff. intros [Hd Hc].
    rewrite (parse_override_block_unset P _ false Hd). cbn [rbind].
    destruct (jget_none members "characters") as [| | | | | |items] eqn:Hj;
      simpl truthy; cbv iota;
      try (repeat match goal with |- context [if ?b then _ else _] => destruct b end;
           cbn [rbind]; try discriminate;
           intros [= <-]; split; [reflexivity|]; intros k e; simpl;
           rewrite lookup_empty; discriminate).
    destruct items as [|it items'].
    + cbn. intros [= <-]. split; [reflexivity|]. intros k e. simpl.
      rewrite lookup_empty. discriminate.
    + cbn [rbind].
      destruct (load_characters P (it :: items') ∅) as [cs|] eqn:Hcs; [|discriminate].
      cbn [rbind]. intros [= <-]. split; [reflexivity|]. simpl.
      eapply load_characters_default; [exact Hc| |exact Hcs].
      intros k e. rewrite lookup_empty. discriminate.
Qed.

Lemma resolve_character_override_default ov character side :
  defaults ov = default_block → entries_default (characters ov) →
  resolve_character_override ov character side = default_block.
Proof.
  intros Hd Hcs. unfold resolve_character_override. rewrite Hd.
  assert (Hzero : <["offset_x" :=
                      VInt (apply_center_offset (get_offset_x default_block) side)]>
                    default_block = default_block).
  { unfold apply_center_offset.
    destruct (String.eqb (lower side) "right"); reflexivity. }
  destruct (characters ov !! normalize_token character) as [e|] eqn:He;
    [|exact Hzero].
  case_decide; [exact Hzero|].
  rewrite (Hcs _ _ He).
  unfold apply_center_offset.
  destruct (String.eqb (lower side) "left"), (String.eqb (lower side) "right");
    reflexivity.
Qed.

(** C10. Whatever payload the loader accepts, every resolved override
    carries [scale], [offset_x] and [offset_y]; and when the configuration
    sets none of them anywhere the resolved override is
    [{scale: 1.0, offset_x: 0, offset_y: 0}]. *)
Theorem resolve_after_load_has_all_keys P (payload : json) ov
    (character side : string) :
  load_character_overrides_data P payload = Ok ov →
  let res := resolve_character_override ov character side in
  ((∃ q, res !! "scale" = Some (VFloat q))
   ∧ (∃ x, res !! "offset_x" = Some (VInt x))
   ∧ (∃ y, res !! "offset_y" = Some (VInt y)))
  ∧ (config_sets_none payload = true →
       res !! "scale" = Some (VFloat 1)
       ∧ res !! "offset_x" = Some (VInt 0)
       ∧ res !! "offset_y" = Some (VInt 0)).
Proof.
  intros Hload res. split.
  - destruct (load_character_overrides_data_ok _ _ _ Hload) as [Hd Hcs].
    exact (resolve_character_override_full ov character side Hd Hcs).
  - intros Hnone.
    destruct (load_character_overrides_data_default _ _ _ Hnone Hload) as [Hd Hcs].
    subst res. rewrite (resolve_character_override_default ov character side Hd Hcs).
    repeat split.
Qed.

(** A payload in which only a side block exists, carrying the two flags
    the override editor writes. *)
Definition flags_payload : json :=
  JObj [("characters",
         JObj [("Fox",
                JObj [("right",
                       JObj [("mirror", JBool true);
                             ("use_other_side", JBool true)])])])].

Definition no_str_parsers : str_parsers :=
  {| float_of_str := fun _ => None; int_of_str := fun _ => None |}.

Definition loaded (P : str_parsers) (payload : json) : overrides :=
  match load_character_overrides_data P payload with
  | Ok ov => ov
  | Raise _ => {| defaults := default_block; characters := ∅ |}
  end.

Lemma resolve_after_load_has_all_keys_witness :
  let res :=
    resolve_character_override (loaded no_str_parsers flags_payload) "Fox" "Right" in
  ((∃ q, res !! "scale" = Some (VFloat q))
   ∧ (∃ x, res !! "offset_x" = Some (VInt x))
   ∧ (∃ y, res !! "offset_y" = Some (VInt y)))
  ∧ res !! "scale" = Some (VFloat 1)
  ∧ res !! "offset_x" = Some (VInt 0)
  ∧ res !! "offset_y" = Some (VInt 0).
Proof.
  pose proof (resolve_after_load_has_all_keys no_str_parsers flags_payload
                (loaded no_str_parsers flags_payload) "Fox" "Right" eq_refl) as [H1 H2].
  split; [exact H1 | exact (H2 eq_refl)].
Defined.

(** Keys other than the three handled ones are never taken from a base or
    side block: the resolved override shows the defaults' binding. *)
Lemma resolve_character_override_other_key ov (character side k : string) :
  k ≠ "scale" → k ≠ "offset_x" → k ≠ "offset_y" →
  resolve_character_override ov character side !! k = defaults ov !! k.
Proof.
  intros Hs Hx Hy. unfold resolve_character_override.
  destruct (characters ov !! normalize_token character) as [e|].
  - case_decide.
    + rewrite lookup_insert_ne by congruence. reflexivity.
    + rewrite lookup_insert_ne by congruence.
      rewrite !merge_overrides_other by assumption. reflexivity.
  - rewrite lookup_insert_ne by congruence. reflexivity.
Qed.

(** C6, evaluated on the code.  A [mirror] or [use_other_side] flag set in
    a side block does not reach the resolved override: the loader keeps
    only [scale], [offset_x] and [offset_y] of a side block, and
    [merge_overrides] copies only those three keys even from a side block
    that does hold a flag. *)
Theorem side_block_flags_not_resolved :
  (∀ P, ∃ ov,
      load_character_overrides_data P flags_payload = Ok ov
      ∧ resolve_character_override ov "Fox" "Right" !! "mirror" = None
      ∧ resolve_character_override ov "Fox" "Right" !! "use_other_side" = None)
  ∧ (let ov :=
       {| defaults := default_block;
          characters :=
            {[ "fox" := {[ "right" := {[ "mirror" := VBool true ]} ]} ]} |} in
     resolve_character_override ov "Fox" "Right" !! "mirror" = None).
Proof.
  split.
  - intros P. eexists. split; [reflexivity|]. split; reflexivity.
  - reflexivity.
Qed.

End Cascade.

(** ** Text fitting *)

Lemma string_app_assoc (a b c : string) : (a ++ b) ++ c = a ++ (b ++ c).
Proof.
  induction a as [|x a IH]; [reflexivity|].
  change (String x ((a ++ b) ++ c) = String x (a ++ (b ++ c))). now rewrite IH.
Qed.

Lemma range_down2_bounds start n x :
  In x (range_down2 start n) → start - 2 * Z.of_nat n + 2 ≤ x ≤ start.
Proof.
  revert start. induction n as [|n IH]; intros start; simpl; [tauto|].
  intros [<- | Hin]; [lia|]. apply IH in Hin. lia.
Qed.

Lemma py_range_down2_lower start stop x :
  In x (py_range_down2 start stop) → stop < x.
Proof.
  unfold py_range_down2. intros Hin. apply range_down2_bounds in Hin.
  destruct (Z_lt_le_dec stop start) as [Hlt | Hle].
  - rewrite Z2Nat.id in Hin by (apply Z.div_pos; lia).
    pose proof (Z.mul_div_le (start - stop + 1) 2 ltac:(lia)). lia.
  - assert (Hz : (start - stop + 1) / 2 ≤ 0).
    { apply Z.lt_succ_r. apply Z.div_lt_upper_bound; lia. }
    rewrite Z2Nat.nonpos in Hin by lia. change (Z.of_nat 0) with 0 in Hin. lia.
Qed.

Section TextMonotone.

Variable text_width : Z -> string -> Z.

(** The font assumption behind monotonicity: a line never gets wider when
    the words in front of it, and the space after them, are taken away. *)
Hypothesis text_width_suffix :
  ∀ (font : Z) (front line : string),
    text_width font line ≤ text_width font (front ++ " " ++ line).

(** [short] is the tail of a line that starts at a later word. *)
Definition line_tail (short long : string) : Prop :=
  short = long ∨ ∃ front, long = front ++ " " ++ short.

Lemma line_tail_width font short long :
  line_tail short long → text_width font short ≤ text_width font long.
Proof. intros [-> | [front ->]]; [lia | apply text_width_suffix]. Qed.

Lemma line_tail_extend short long word :
  line_tail short long → line_tail (short ++ " " ++ word) (long ++ " " ++ word).
Proof.
  intros [-> | [front ->]]; [left; reflexivity|].
  right. exists front. rewrite !string_app_assoc. reflexivity.
Qed.

Lemma line_tail_word long word : line_tail word (long ++ " " ++ word).
Proof. right. exists long. reflexivity. Qed.

(** A run of the wrapping loop that succeeds still has room for the line
    being filled. *)
Lemma wrap_loop_room font max_width max_lines words lines current :
  is_Some (wrap_loop text_width font max_width max_lines words lines current) →
  len lines + 1 ≤ max_lines.
Proof.
  revert lines current. induction words as [|word rest IH]; intros lines current; simpl.
  - unfold len. rewrite length_app. simpl.
    destruct (Z.gtb_spec (Z.of_nat (length lines + 1)) max_lines).
    + intros [? [=]].
    + intros _. lia.
  - destruct (text_width font (current ++ " " ++ word) <=? max_width).
    + apply IH.
    + destruct (text_width font word >? max_width); [intros [? [=]]|].
      destruct (len (lines ++ [current]) >=? max_lines); [intros [? [=]]|].
      intros H. apply IH in H. unfold len in *. rewrite length_app in H.
      simpl in H. lia.
Qed.

(** The run at the larger width is never behind the run at the smaller
    width: it has closed fewer lines, or as many and its current line
    starts no earlier. *)
Lemma wrap_loop_mono font max_lines w1 w2 words :
  w1 ≤ w2 →
  ∀ lines1 current1 lines2 current2,
    (len lines2 < len lines1
     ∨ (len lines2 = len lines1 ∧ line_tail current2 current1)) →
    is_Some (wrap_loop text_width font w1 max_lines words lines1 current1) →
    is_Some (wrap_loop text_width font w2 max_lines words lines2 current2).
Proof.
  intros Hw. induction words as [|word rest IH];
    intros lines1 current1 lines2 current2 Hinv H1.
  - pose proof (wrap_loop_room _ _ _ _ _ _ H1) as Hroom. simpl.
    destruct (Z.gtb_spec (len (lines2 ++ [current2])) max_lines) as [Hgt|]; [|eauto].
    unfold len in *. rewrite length_app in Hgt. simpl in Hgt. lia.
  - simpl in H1 |- *.
    destruct (Z.leb_spec (text_width font (current1 ++ " " ++ word)) w1) as [Hfit1|Hno1].
    + (* the narrow run keeps the word on its line *)
      pose proof (wrap_loop_room _ _ _ _ _ _ H1) as Hroom.
      destruct (Z.leb_spec (text_width font (current2 ++ " " ++ word)) w2) as [Hfit2|Hno2].
      * apply (IH lines1 (current1 ++ " " ++ word)); [|exact H1].
        destruct Hinv as [Hlt | [Heq Htail]]; [left; exact Hlt|].
        right. split; [exact Heq | apply line_tail_extend, Htail].
      * destruct Hinv as [Hlt | [Heq Htail]].
        -- assert (Hword : text_width font word ≤ w2).
           { pose proof (text_width_suffix font current1 word). lia. }
           destruct (Z.gtb_spec (text_width font word) w2); [lia|].
           destruct (Z.geb_spec (len (lines2 ++ [current2])) max_lines) as [Hge|Hlt'].
           { unfold len in *. rewrite length_app in Hge. simpl in Hge. lia. }
           apply (IH lines1 (current1 ++ " " ++ word)); [|exact H1].
           unfold len in *. rewrite length_app. simpl.
           destruct (Z.eq_dec (Z.of_nat (length lines2) + 1) (Z.of_nat (length lines1))).
           ++ right. split; [lia | apply line_tail_word].
           ++ left. lia.
        -- pose proof (line_tail_width font _ _ (line_tail_extend _ _ word Htail)).
           lia.
    + (* the narrow run closes its line *)
      destruct (Z.gtb_spec (text_width font word) w1) as [|Hword1];
        [destruct H1 as [? [=]]|].
      destruct (Z.geb_spec (len (lines1 ++ [current1])) max_lines) as [|Hroom1];
        [destruct H1 as [? [=]]|].
      destruct (Z.leb_spec (text_width font (current2 ++ " " ++ word)) w2) as [Hfit2|Hno2].
      * apply (IH (lines1 ++ [current1])%list word); [|exact H1].
        left. unfold len in *. rewrite length_app. simpl.
        destruct Hinv as [Hlt | [Heq _]]; lia.
      * destruct (Z.gtb_spec (text_width font word) w2); [lia|].
        destruct (Z.geb_spec (len (lines2 ++ [current2])) max_lines) as [Hge|Hlt'].
        { unfold len in *. rewrite !length_app in *. simpl in *.
          destruct Hinv as [Hlt | [Heq _]]; lia. }
        apply (IH (lines1 ++ [current1])%list word); [|exact H1].
        unfold len in *. rewrite !length_app. simpl.
        destruct Hinv as [Hlt | [Heq _]].
        -- left. lia.
        -- right. split; [lia | left; reflexivity].
Qed.

Lemma wrap_text_mono text font max_lines w1 w2 :
  w1 ≤ w2 →
  is_Some (wrap_text text_width text font w1 max_lines) →
  is_Some (wrap_text text_width text font w2 max_lines).
Proof.
  intros Hw. unfold wrap_text. destruct (split text) as [|first rest]; [eauto|].
  destruct (Z.gtb_spec (text_width font first) w1); [intros [? [=]]|].
  destruct (Z.gtb_spec (text_width font first) w2); [lia|].
  apply wrap_loop_mono; [exact Hw|]. right. split; [reflexivity | left; reflexivity].
Qed.

Lemma fit_loop_some text max_width max_lines sizes size lines :
  fit_loop text_width text max_width max_lines sizes = Some (size, lines) →
  In size sizes ∧ wrap_text text_width text size max_width max_lines = Some lines.
Proof.
  induction sizes as [|s rest IH]; simpl; [discriminate|].
  destruct (wrap_text text_width text s max_width max_lines) as [l|] eqn:Hw.
  - intros [= <- <-]. auto.
  - intros H. apply IH in H as [? ?]. auto.
Qed.

Lemma fit_loop_mono text max_lines w1 w2 n :
  w1 ≤ w2 →
  ∀ start r1,
    fit_loop text_width text w1 max_lines (range_down2 start n) = Some r1 →
    ∃ r2, fit_loop text_width text w2 max_lines (range_down2 start n) = Some r2
          ∧ fst r1 ≤ fst r2.
Proof.
  intros Hw. induction n as [|n IH]; intros start r1; simpl; [discriminate|].
  destruct (wrap_text text_width text start w1 max_lines) as [l1|] eqn:H1.
  - intros [= <-].
    destruct (wrap_text_mono text start max_lines w1 w2 Hw) as [l2 H2]; [eauto|].
    rewrite H2. exists (start, l2). simpl. split; [reflexivity | lia].
  - intros Hrest.
    destruct (wrap_text text_width text start w2 max_lines) as [l2|] eqn:H2.
    + exists (start, l2). split; [reflexivity|]. destruct r1 as [s1 l1].
      apply fit_loop_some in Hrest as [Hin _].
      apply range_down2_bounds in Hin. simpl. lia.
    + apply IH, Hrest.
Qed.

(** C4. With the text, the font, the size range and [max_lines] fixed,
    the font size chosen by [fit_text] never grows when [max_width]
    shrinks: for [w1 ≤ w2] the size chosen at [w1] is at most the size
    chosen at [w2]. *)
Theorem fit_text_size_monotone (text : string) (max_size min_size max_lines w1 w2 : Z) :
  w1 ≤ w2 →
  fst (fit_text text_width text max_size min_size w1 max_lines)
  ≤ fst (fit_text text_width text max_size min_size w2 max_lines).
Proof.
  intros Hw. unfold fit_text, py_range_down2.
  set (n := Z.to_nat ((max_size - (min_size - 1) + 1) / 2)).
  destruct (fit_loop text_width text w1 max_lines (range_down2 max_size n))
    as [r1|] eqn:H1.
  - destruct (fit_loop_mono text max_lines w1 w2 n Hw _ _ H1) as (r2 & -> & Hle).
    exact Hle.
  - assert (Hmin : fst (match wrap_text text_width text min_size w1 max_lines with
                        | Some lines => (min_size, lines)
                        | None => (min_size, [truncate_text text_width text min_size w1])
                        end) = min_size).
    { destruct (wrap_text text_width text min_size w1 max_lines); reflexivity. }
    rewrite Hmin.
    destruct (fit_loop text_width text w2 max_lines (range_down2 max_size n))
      as [[s2 l2]|] eqn:H2.
    + apply fit_loop_some in H2 as [Hin _].
      apply (py_range_down2_lower max_size (min_size - 1)) in Hin. simpl. lia.
    + destruct (wrap_text text_width text min_size w2 max_lines); simpl; lia.
Qed.

End TextMonotone.

(** A fixed-pitch font: every character advances by the font size. *)
Definition fixed_pitch (size : Z) (s : string) : Z :=
  Z.abs size * Z.of_nat (String.length s).

Example wrap_text_ex :
  wrap_text fixed_pitch "Grand Finals" 10 60 2 = Some ["Grand"; "Finals"]
  ∧ wrap_text fixed_pitch "Grand Finals" 10 60 1 = None
  ∧ wrap_text fixed_pitch "   " 10 60 1 = Some [""].
Proof. repeat split. Qed.

Example fit_text_ex :
  fit_text fixed_pitch "Grand Finals" 10 4 60 1 = (4, ["Grand Finals"])
  ∧ fit_text fixed_pitch "Hello World" 10 10 70 1 = (10, ["Hell..."])
  ∧ fit_text fixed_pitch "Hello  World" 10 10 90 1 = (10, ["Hello..."])
  ∧ fit_text fixed_pitch "Hello" 10 5 29 1 = (5, ["Hello"]).
Proof. repeat split. Qed.

Lemma string_length_app (a b : string) :
  String.length (a ++ b) = (String.length a + String.length b)%nat.
Proof.
  induction a as [|x a IH]; [reflexivity|].
  change (S (String.length (a ++ b)) = S (String.length a + String.length b)).
  now rewrite IH.
Qed.

Lemma fixed_pitch_suffix (font : Z) (front line : string) :
  fixed_pitch font line ≤ fixed_pitch font (front ++ " " ++ line).
Proof.
  unfold fixed_pitch. rewrite !string_length_app. nia.
Qed.

Lemma fit_text_size_monotone_witness :
  fst (fit_text fixed_pitch "Grand Finals" 10 4 60 1)
  ≤ fst (fit_text fixed_pitch "Grand Finals" 10 4 120 1).
Proof.
  apply (fit_text_size_monotone fixed_pitch fixed_pitch_suffix). lia.
Defined.

(** *** Strings as character lists *)

Lemma chars_str (l : list ascii) : chars (str l) = l.
Proof. apply list_ascii_of_string_of_list_ascii. Qed.

Lemma str_chars (s : string) : str (chars s) = s.
Proof. apply string_of_list_ascii_of_string. Qed.

Lemma chars_app (a b : string) : chars (a ++ b) = (chars a ++ chars b)%list.
Proof.
  induction a as [|x a IH]; [reflexivity|].
  change (x :: chars (a ++ b) = x :: (chars a ++ chars b)%list). now rewrite IH.
Qed.

Lemma str_app (a b : list ascii) : str (a ++ b)%list = str a ++ str b.
Proof.
  rewrite <- (str_chars (str a ++ str b)), chars_app, !chars_str. reflexivity.
Qed.

Lemma chars_inj (a b : string) : chars a = chars b → a = b.
Proof. intros H. rewrite <- (str_chars a), <- (str_chars b), H. reflexivity. Qed.

Lemma string_length_chars (s : string) : String.length s = length (chars s).
Proof. induction s as [|x s IH]; simpl; [reflexivity | now rewrite IH]. Qed.

(** [p] is an initial segment of [text]. *)
Definition is_prefix_of (p text : string) : Prop := ∃ rest, text = p ++ rest.

Lemma is_prefix_of_chars p text :
  is_prefix_of p text ↔ ∃ rest, chars text = (chars p ++ rest)%list.
Proof.
  split.
  - intros [rest ->]. exists (chars rest). apply chars_app.
  - intros [rest H]. exists (str rest). apply chars_inj.
    rewrite chars_app, chars_str. exact H.
Qed.

Lemma is_prefix_of_refl s : is_prefix_of s s.
Proof. apply is_prefix_of_chars. exists []. now rewrite app_nil_r. Qed.

Lemma is_prefix_of_trans a b c : is_prefix_of a b → is_prefix_of b c → is_prefix_of a c.
Proof.
  intros [r1 ->] [r2 ->]. exists (r1 ++ r2). apply string_app_assoc.
Qed.

Lemma is_prefix_of_length p text :
  is_prefix_of p text → (String.length p ≤ String.length text)%nat.
Proof. intros [rest ->]. rewrite string_length_app. lia. Qed.

Lemma drop_while_split f l :
  ∃ ws, l = (ws ++ drop_while f l)%list.
Proof.
  induction l as [|c l [ws IH]]; simpl.
  - exists []. reflexivity.
  - destruct (f c).
    + exists (c :: ws). simpl. now rewrite <- IH.
    + exists []. reflexivity.
Qed.

Lemma drop_while_stop f a c b :
  f c = false → drop_while f (a ++ c :: b) = (drop_while f a ++ c :: b)%list.
Proof.
  intros Hc. induction a as [|x a IH]; simpl.
  - now rewrite Hc.
  - destruct (f x); [exact IH | reflexivity].
Qed.

Lemma drop_while_fixed f c l : drop_while f (c :: l) = c :: l → f c = false.
Proof.
  simpl. destruct (f c); [|reflexivity]. intros H.
  destruct (drop_while_split f l) as [ws Hws].
  apply (f_equal (@length ascii)) in H. apply (f_equal (@length ascii)) in Hws.
  rewrite length_app in Hws. simpl in H. lia.
Qed.

Lemma rstrip_prefix s : is_prefix_of (rstrip s) s.
Proof.
  apply is_prefix_of_chars. unfold rstrip. rewrite chars_str.
  destruct (drop_while_split is_space (rev (chars s))) as [ws Hws].
  exists (rev ws). rewrite <- rev_app_distr, <- Hws, rev_involutive. reflexivity.
Qed.

Lemma drop_last_prefix s : is_prefix_of (drop_last s) s.
Proof.
  apply is_prefix_of_chars. unfold drop_last. rewrite chars_str.
  destruct (chars s) as [|c l] eqn:E.
  - exists []. reflexivity.
  - exists [List.last (c :: l) c]. apply app_removelast_last. discriminate.
Qed.

Lemma drop_last_length s :
  s ≠ "" → (String.length (drop_last s) < String.length s)%nat.
Proof.
  intros Hs. rewrite !string_length_chars. unfold drop_last. rewrite chars_str.
  destruct (chars s) as [|c l] eqn:E.
  - exfalso. apply Hs. apply chars_inj. exact E.
  - rewrite (app_removelast_last c (l := c :: l)) at 2 by discriminate.
    rewrite length_app. simpl. lia.
Qed.

Lemma trim_step_length s :
  s ≠ "" → (String.length (rstrip (drop_last s)) < String.length s)%nat.
Proof.
  intros Hs. pose proof (drop_last_length s Hs).
  pose proof (is_prefix_of_length _ _ (rstrip_prefix (drop_last s))). lia.
Qed.

(** A shorter prefix that does not end in whitespace survives one step of
    the trimming loop. *)
Lemma trim_step_keeps_prefix p t :
  is_prefix_of p t → p ≠ t → rstrip p = p → is_prefix_of p (rstrip (drop_last t)).
Proof.
  intros Hp Hne Hstrip. apply is_prefix_of_chars in Hp as [rest Hrest].
  apply is_prefix_of_chars.
  assert (Hrest_ne : rest ≠ []).
  { intros ->. apply Hne. apply chars_inj. now rewrite Hrest, app_nil_r. }
  unfold rstrip, drop_last. rewrite !chars_str, Hrest.
  rewrite removelast_app by exact Hrest_ne.
  rewrite rev_app_distr.
  destruct (rev (chars p)) as [|c r] eqn:Hrev.
  - assert (chars p = []) as ->.
    { rewrite <- (rev_involutive (chars p)), Hrev. reflexivity. }
    eexists. reflexivity.
  - assert (Hc : is_space c = false).
    { apply (drop_while_fixed is_space c r).
      apply (f_equal chars) in Hstrip. unfold rstrip in Hstrip.
      rewrite chars_str, Hrev in Hstrip.
      apply (f_equal (@rev ascii)) in Hstrip.
      rewrite rev_involutive, Hrev in Hstrip. exact Hstrip. }
    rewrite drop_while_stop by exact Hc. rewrite rev_app_distr.
    exists (rev (drop_while is_space (rev (removelast rest)))).
    f_equal. rewrite <- Hrev, rev_involutive. reflexivity.
Qed.

Lemma is_prefix_of_empty p : is_prefix_of p "" → p = "".
Proof.
  intros H. apply is_prefix_of_length in H. destruct p; [reflexivity|].
  simpl in H. lia.
Qed.

Section Truncation.

Variable text_width : Z -> string -> Z.
Variables (font max_width : Z).

(** The candidate line [p...] fits the width. *)
Definition ellipsis_fits (p : string) : Prop :=
  text_width font (p ++ "...") ≤ max_width.

(** What the trimming loop leaves: a prefix of the text it started from,
    empty or fitting with the ellipsis, and longer than which no tried
    prefix fits.  The tried prefixes are the text itself and its prefixes
    that do not end in whitespace. *)
Lemma truncate_loop_spec fuel t :
  (String.length t ≤ fuel)%nat →
  let r := truncate_loop text_width font max_width fuel t in
  is_prefix_of r t
  ∧ (r = "" ∨ ellipsis_fits r)
  ∧ (∀ p, p ≠ "" → is_prefix_of p t → (p = t ∨ rstrip p = p) →
          (String.length r < String.length p)%nat → ¬ ellipsis_fits p).
Proof.
  revert t. induction fuel as [|fuel IH]; intros t Hlen; simpl.
  - assert (t = "") as -> by (destruct t; [reflexivity | simpl in Hlen; lia]).
    split; [apply is_prefix_of_refl|]. split; [left; reflexivity|].
    intros p Hp Hpre. apply is_prefix_of_empty in Hpre. contradiction.
  - destruct (String.eqb_spec t "") as [-> | Hne]; cbn [negb andb].
    + split; [apply is_prefix_of_refl|]. split; [left; reflexivity|].
      intros p Hp Hpre. apply is_prefix_of_empty in Hpre. contradiction.
    + destruct (Z.gtb_spec (text_width font (t ++ "...")) max_width) as [Hwide | Hfit].
      * pose proof (trim_step_length t Hne) as Hshort.
        destruct (IH (rstrip (drop_last t)) ltac:(lia)) as (Hpre & Hend & Hmax).
        split.
        { eapply is_prefix_of_trans; [exact Hpre|].
          eapply is_prefix_of_trans; [apply rstrip_prefix | apply drop_last_prefix]. }
        split; [exact Hend|].
        intros p Hp Hpt Hkind Hlonger.
        destruct (string_dec p t) as [-> | Hpne].
        -- unfold ellipsis_fits. lia.
        -- destruct Hkind as [-> | Hstrip]; [contradiction|].
           apply Hmax; auto using trim_step_keeps_prefix.
      * split; [apply is_prefix_of_refl|]. split; [right; exact Hfit|].
        intros p _ Hpt _ Hlonger. apply is_prefix_of_length in Hpt. lia.
Qed.

(** [truncate_text] in full: the text itself when it fits; otherwise the
    longest tried prefix that fits together with the ellipsis; and the
    text itself again when no tried prefix does. *)
Lemma truncate_text_spec text :
  let line := truncate_text text_width text font max_width in
  (text_width font text ≤ max_width → line = text)
  ∧ (max_width < text_width font text →
       (∃ p, p ≠ "" ∧ is_prefix_of p text ∧ line = p ++ "..."
             ∧ text_width font line ≤ max_width)
       ∨ (line = text
          ∧ ∀ p, p ≠ "" → is_prefix_of p text → (p = text ∨ rstrip p = p) →
                 max_width < text_width font (p ++ "..."))).
Proof.
  unfold truncate_text. split.
  - intros Hfit. destruct (Z.leb_spec (text_width font text) max_width); [reflexivity|lia].
  - intros Hwide.
    destruct (Z.leb_spec (text_width font text) max_width); [lia|].
    destruct (truncate_loop_spec (String.length text) text (le_n _))
      as (Hpre & Hend & Hmax).
    destruct (String.eqb_spec
                (truncate_loop text_width font max_width (String.length text) text) "")
      as [Hempty | Hne].
    + right. split; [reflexivity|]. intros p Hp Hpt Hkind.
      rewrite Hempty in Hmax.
      assert (Hlen : (String.length "" < String.length p)%nat).
      { destruct p; [contradiction | simpl; lia]. }
      specialize (Hmax p Hp Hpt Hkind Hlen). unfold ellipsis_fits in Hmax. lia.
    + left. eexists. split; [exact Hne|]. split; [exact Hpre|].
      split; [reflexivity|]. destruct Hend as [? | Hfit]; [contradiction | exact Hfit].
Qed.

End Truncation.

Section Fallback.

Variable text_width : Z -> string -> Z.

Lemma fit_loop_none text max_width max_lines sizes :
  (∀ size, In size sizes →
           wrap_text text_width text size max_width max_lines = None) →
  fit_loop text_width text max_width max_lines sizes = None.
Proof.
  induction sizes as [|s rest IH]; intros Hall; simpl; [reflexivity|].
  rewrite (Hall s) by (left; reflexivity).
  apply IH. intros size Hin. apply Hall. right. exact Hin.
Qed.

(** C8, as the code has it.  When no size of the stepped range wraps and
    [min_size] does not wrap either, [fit_text] returns [min_size] and one
    line, the result of [truncate_text]: the text unchanged when it
    already fits [max_width]; otherwise a non-empty prefix of the text
    followed by the ellipsis, of width at most [max_width]; or, when no
    non-empty prefix with the ellipsis fits, the text unchanged. *)
Theorem fit_text_fallback_truncates
    (text : string) (max_size min_size max_width max_lines : Z) :
  (∀ size, In size (py_range_down2 max_size (min_size - 1)) →
           wrap_text text_width text size max_width max_lines = None) →
  wrap_text text_width text min_size max_width max_lines = None →
  ∃ line,
    fit_text text_width text max_size min_size max_width max_lines = (min_size, [line])
    ∧ (text_width min_size text ≤ max_width → line = text)
    ∧ (max_width < text_width min_size text →
         (∃ p, p ≠ "" ∧ is_prefix_of p text ∧ line = p ++ "..."
               ∧ text_width min_size line ≤ max_width)
         ∨ (line = text
            ∧ ∀ p, p ≠ "" → is_prefix_of p text → (p = text ∨ rstrip p = p) →
                   max_width < text_width min_size (p ++ "..."))).
Proof.
  intros Hrange Hmin. unfold fit_text.
  rewrite (fit_loop_none _ _ _ _ Hrange), Hmin.
  eexists. split; [reflexivity|].
  exact (truncate_text_spec text_width min_size max_width text).
Qed.

End Fallback.

Lemma fit_text_fallback_truncates_witness :
  ∃ line,
    fit_text fixed_pitch "Hello World" 10 10 70 1 = (10, [line])
    ∧ (fixed_pitch 10 "Hello World" ≤ 70 → line = "Hello World")
    ∧ (70 < fixed_pitch 10 "Hello World" →
         (∃ p, p ≠ "" ∧ is_prefix_of p "Hello World" ∧ line = p ++ "..."
               ∧ fixed_pitch 10 line ≤ 70)
         ∨ (line = "Hello World"
            ∧ ∀ p, p ≠ "" → is_prefix_of p "Hello World" →
                   (p = "Hello World" ∨ rstrip p = p) →
                   70 < fixed_pitch 10 (p ++ "..."))).
Proof.
  apply (fit_text_fallback_truncates fixed_pitch "Hello World" 10 10 70 1).
  - intros size [<- | []]. reflexivity.
  - reflexivity.
Defined.

(** The claim as worded fails when not even one character and the ellipsis
    fit: at size 10 and width 20 the name comes back whole and too wide. *)
Lemma fit_text_fallback_counterexample :
  (∀ size, In size (py_range_down2 10 (10 - 1)) →
           wrap_text fixed_pitch "Hello" size 20 1 = None)
  ∧ wrap_text fixed_pitch "Hello" 10 20 1 = None
  ∧ ¬ (∃ p, is_prefix_of p "Hello"
            ∧ snd (fit_text fixed_pitch "Hello" 10 10 20 1) = [p ++ "..."]
            ∧ fixed_pitch 10 (p ++ "...") ≤ 20).
Proof.
  split; [intros size [<- | []]; reflexivity|].
  split; [reflexivity|].
  intros (p & _ & Hline & Hwidth).
  change (snd (fit_text fixed_pitch "Hello" 10 10 20 1)) with ["Hello"] in Hline.
  injection Hline as Hline. rewrite <- Hline in Hwidth.
  vm_compute in Hwidth. apply Hwidth. reflexivity.
Qed.

(** ** Python numbers *)

Lemma py_round_comp (q1 q2 : Q) : (q1 == q2)%Q → py_round q1 = py_round q2.
Proof.
  intros H. unfold py_round.
  assert (Hf : Qfloor q1 = Qfloor q2) by (apply Qfloor_comp, H).
  rewrite <- Hf.
  assert (Hc : ((2 * (q1 - inject_Z (Qfloor q1)) ?= 1)
                = (2 * (q2 - inject_Z (Qfloor q1)) ?= 1))%Q).
  { apply Qcompare_comp; [|reflexivity].
    apply Qmult_comp; [reflexivity|]. apply Qplus_comp; [exact H | reflexivity]. }
  rewrite Hc. reflexivity.
Qed.

Lemma py_round_inject (z : Z) : py_round (inject_Z z) = z.
Proof.
  unfold py_round. rewrite Qfloor_Z.
  assert (Hc : ((2 * (inject_Z z - inject_Z z) ?= 1) = Lt)%Q).
  { apply (proj1 (Qlt_alt _ _)).
    apply Qle_lt_trans with 0%Q; [|reflexivity].
    apply Qle_lteq. right. ring. }
  rewrite Hc. reflexivity.
Qed.


Lemma py_round_times_one (z : Z) (scale : Q) :
  (scale == 1)%Q → py_round (inject_Z z * scale) = z.
Proof.
  intros H. rewrite (py_round_comp _ (inject_Z z)); [apply py_round_inject|].
  rewrite H. ring.
Qed.

Lemma qmin_Qmin (a b : Q) : (qmin a b == Qmin a b)%Q.
Proof.
  unfold qmin. destruct (Qle_bool a b) eqn:E.
  - apply Qle_bool_iff in E. symmetry. apply Q.min_l. exact E.
  - assert (b <= a)%Q.
    { destruct (Qlt_le_dec b a) as [Hlt | Hle]; [apply Qlt_le_weak, Hlt|].
      apply Qle_bool_iff in Hle. congruence. }
    symmetry. apply Q.min_r. assumption.
Qed.

Lemma py_div_ok (a b : Z) : b ≠ 0 → py_div a b = Ok (inject_Z a / inject_Z b)%Q.
Proof. intros H. unfold py_div. destruct (Z.eqb_spec b 0); [contradiction | reflexivity]. Qed.

(** ** Image transforms *)

Section Transforms.

Variable lanczos : image -> Z -> Z -> Z -> Z -> rgba.
Variable paste_blend : rgba -> rgba -> Z -> rgba.
Variable over : rgba -> rgba -> rgba.
Variable getrgb : string -> rgba.

(** C3. Outline synthesis with size 0 returns the very image it was
    given, and with a size [s > 0] an image [2 * s] pixels wider and
    [2 * s] pixels taller. *)
Theorem apply_character_outline_size (im : image) (color : string) :
  apply_character_outline paste_blend over getrgb im 0 color = im
  ∧ ∀ s, 0 < s →
      width (apply_character_outline paste_blend over getrgb im s color)
        = width im + 2 * s
      ∧ height (apply_character_outline paste_blend over getrgb im s color)
        = height im + 2 * s.
Proof.
  split; [reflexivity|].
  intros s Hs. unfold apply_character_outline.
  destruct (Z.leb_spec s 0); [lia|]. simpl. lia.
Qed.


End Transforms.

(** *** Sample data for the transforms *)

Definition opaque_white : rgba := {| red := 255; green := 255; blue := 255; alpha := 255 |}.
Definition opaque_black : rgba := {| red := 0; green := 0; blue := 0; alpha := 255 |}.

(** A fully opaque sprite of the given size. *)
Definition solid_sprite (w h : Z) : image :=
  {| width := w; height := h; pixel := fun _ _ => opaque_white |}.

(** Stand-ins for the library's pixel arithmetic: nearest-neighbour
    resampling and all-or-nothing blending. *)
Definition nearest (im : image) (w h x y : Z) : rgba :=
  pixel im (x * width im / w) (y * height im / h).
Definition hard_blend (dest src : rgba) (mask : Z) : rgba :=
  if Z.eqb mask 0 then dest else src.
Definition hard_over (dst src : rgba) : rgba :=
  if Z.eqb (alpha src) 0 then dst else src.
Definition always_black (color : string) : rgba := opaque_black.

Lemma apply_character_outline_size_witness :
  width (apply_character_outline hard_blend hard_over always_black
           (solid_sprite 4 6) 3 "#000000") = 4 + 2 * 3
  ∧ height (apply_character_outline hard_blend hard_over always_black
              (solid_sprite 4 6) 3 "#000000") = 6 + 2 * 3.
Proof.
  apply (proj2 (apply_character_outline_size hard_blend hard_over always_black
                  (solid_sprite 4 6) "#000000") 3).
  lia.
Defined.


(** ** Sprite placement *)

Section PlacementFacts.

Variable lanczos : image -> Z -> Z -> Z -> Z -> rgba.


End PlacementFacts.


(** ** Asset locator *)


Lemma fold_min_le (c : Z) (cs : list Z) : fold_right Z.min c cs ≤ c.
Proof. induction cs as [|x cs IH]; simpl; lia. Qed.

Lemma fold_max_ge (c : Z) (cs : list Z) : c ≤ fold_right Z.max c cs.
Proof. induction cs as [|x cs IH]; simpl; lia. Qed.



Lemma find_image_file_in (d : directory) (wanted : string) (f : png_file) :
  find_image_file d wanted = Some f → In f (png_files d).
Proof.
  unfold find_image_file.
  destruct (List.find (fun f => String.eqb (stem f) wanted) (png_files d))
    as [direct|] eqn:E.
  - intros [= <-]. apply find_some in E. tauto.
  - intros H. apply find_some in H. tauto.
Qed.













(** *** The order of binary64 numbers *)




(** *** A sample character root *)

Definition fox_left : png_file := {| stem := "Default Left"; content := solid_sprite 10 10 |}.
Definition fox_right : png_file := {| stem := "Default Right"; content := solid_sprite 10 8 |}.
Definition fox_green_left : png_file :=
  {| stem := "Green Left"; content := solid_sprite 10 10 |}.

Definition sample_root : character_root :=
  {| root_path := "assets/melee/characters/vs_screen";
     subdirs :=
       [ {| dir_name := "Fox"; png_files := [fox_left; fox_right; fox_green_left] |};
         {| dir_name := "Dr. Mario"; png_files := [] |} ] |}.


(** A pair of sprites whose cropped sizes put the exact fitted heights,
    608 and 547.2 in a box of 760 by 680, in the ratio of nine tenths. *)
Definition marth_left : png_file :=
  {| stem := "Default Left"; content := solid_sprite 500 400 |}.
Definition marth_right : png_file :=
  {| stem := "Default Right"; content := solid_sprite 600 432 |}.


(** In binary64 the right sprite's fitted height falls one step short of
    the threshold, and a tall sprite's fitted height one step over the
    box. *)
Example scaled_height_for_path_ex :
  scaled_height_for_path marth_right 760 680 = Ok 547.19999999999993%float
  ∧ scaled_height_for_path marth_left 760 680 = Ok 608%float
  ∧ PrimFloat.mul 608%float RIGHT_SIDE_HEIGHT_RATIO = 547.20000000000005%float
  ∧ scaled_height_for_path {| stem := "Default Left"; content := solid_sprite 400 1270 |}
      760 680 = Ok 680.00000000000011%float.
Proof. repeat split; vm_compute; reflexivity. Qed.



(* ===================================================================== *)
(** * Further properties *)
(* ===================================================================== *)

(** ** Name normalisation *)

Lemma lower_alnum_char (c : ascii) :
  is_lower_alnum c = true → lower_char c = c ∧ Ascii.eqb c "&"%char = false.
Proof.
  destruct c as [[] [] [] [] [] [] [] []]; intros H; try discriminate H;
    split; reflexivity.
Qed.

Lemma lower_char_idem (c : ascii) : lower_char (lower_char c) = lower_char c.
Proof. destruct c as [[] [] [] [] [] [] [] []]; reflexivity. Qed.

Definition amp_to_and (c : ascii) : list ascii :=
  if Ascii.eqb c "&"%char then chars "and" else [c].

Lemma normalize_token_chars (text : string) :
  chars (normalize_token text)
  = List.filter is_lower_alnum (flat_map amp_to_and (map lower_char (chars text))).
Proof.
  unfold normalize_token, lower. rewrite !chars_str. reflexivity.
Qed.

Lemma normalize_fixed (l : list ascii) :
  Forall (fun c => is_lower_alnum c = true) l →
  List.filter is_lower_alnum (flat_map amp_to_and (map lower_char l)) = l.
Proof.
  induction 1 as [|c l Hc _ IH]; [reflexivity|].
  destruct (lower_alnum_char c Hc) as [Hl Ha].
  simpl. rewrite Hl. unfold amp_to_and at 1. rewrite Ha. simpl. rewrite Hc, IH.
  reflexivity.
Qed.

Lemma filter_all (f : ascii → bool) (l : list ascii) :
  Forall (fun c => f c = true) (List.filter f l).
Proof.
  induction l as [|c l IH]; simpl; [constructor|].
  destruct (f c) eqn:E; [constructor; assumption | assumption].
Qed.

Lemma normalize_token_alnum (text : string) :
  Forall (fun c => is_lower_alnum c = true) (chars (normalize_token text)).
Proof. rewrite normalize_token_chars. apply filter_all. Qed.

Lemma normalize_token_idem (text : string) :
  normalize_token (normalize_token text) = normalize_token text.
Proof.
  apply chars_inj. rewrite (normalize_token_chars (normalize_token text)).
  apply normalize_fixed, normalize_token_alnum.
Qed.

(** X1. A normalised token holds only the characters [a-z0-9];
    normalising is idempotent and does not see letter case.  So the keys
    under which overrides are stored, and the names matched against
    directories and files, are stable under a second normalisation. *)
Theorem normalize_token_canonical (text : string) :
  Forall (fun c => is_lower_alnum c = true) (chars (normalize_token text))
  ∧ normalize_token (normalize_token text) = normalize_token text
  ∧ normalize_token (lower text) = normalize_token text.
Proof.
  split; [apply normalize_token_alnum|]. split; [apply normalize_token_idem|].
  apply chars_inj. rewrite !normalize_token_chars. unfold lower.
  rewrite chars_str, map_map. f_equal. f_equal. apply map_ext.
  intros c. apply lower_char_idem.
Qed.

(** ** Rounding *)

Lemma py_round_cases (q : Q) :
  (py_round q = Qfloor q ∧ (2 * (q - inject_Z (Qfloor q)) <= 1)%Q)
  ∨ (py_round q = Qfloor q + 1 ∧ (1 <= 2 * (q - inject_Z (Qfloor q)))%Q).
Proof.
  unfold py_round.
  destruct (2 * (q - inject_Z (Qfloor q)) ?= 1)%Q eqn:E.
  - apply Qeq_alt in E. destruct (Z.even (Qfloor q)); [left | right];
      (split; [reflexivity|]); rewrite E; apply Qle_refl.
  - apply Qlt_alt in E. left. split; [reflexivity | apply Qlt_le_weak, E].
  - apply Qgt_alt in E. right. split; [reflexivity | apply Qlt_le_weak, E].
Qed.

(** X2. [round] is within half a unit of its argument, and
    [scale_value] within half a pixel of the exact product; a tie goes to
    the even neighbour. *)
Theorem py_round_nearest (q : Q) :
  (q - (1 # 2) <= inject_Z (py_round q))%Q
  ∧ (inject_Z (py_round q) <= q + (1 # 2))%Q
  ∧ ((2 * (q - inject_Z (Qfloor q)) == 1)%Q → Z.even (py_round q) = true)
  ∧ ∀ value, (inject_Z value * q - (1 # 2) <= inject_Z (scale_value value q))%Q
             ∧ (inject_Z (scale_value value q) <= inject_Z value * q + (1 # 2))%Q.
Proof.
  assert (Hnear : ∀ p : Q, (p - (1 # 2) <= inject_Z (py_round p))%Q
                           ∧ (inject_Z (py_round p) <= p + (1 # 2))%Q).
  { intros p. pose proof (Qfloor_le p) as Hlo. pose proof (Qlt_floor p) as Hhi.
    destruct (py_round_cases p) as [[-> H] | [-> H]].
    - split; lra.
    - rewrite inject_Z_plus in *. change (inject_Z 1) with 1%Q in *. split; lra. }
  split; [apply Hnear|]. split; [apply Hnear|]. split.
  - intros Htie. unfold py_round.
    apply Qeq_alt in Htie. rewrite Htie.
    destruct (Z.even (Qfloor q)) eqn:E; [exact E|].
    rewrite Z.even_add, E. reflexivity.
  - intros value. apply Hnear.
Qed.

(** ** Fitting and cropping *)

Lemma py_round_le (q : Q) (n : Z) : (q <= inject_Z n)%Q → py_round q ≤ n.
Proof.
  intros Hq. pose proof (Qfloor_le q) as Hlo.
  destruct (Z_le_gt_dec (py_round q) n) as [Hle | Hgt]; [exact Hle|].
  exfalso.
  assert (Hn : (inject_Z n + 1 <= inject_Z (py_round q))%Q).
  { change 1%Q with (inject_Z 1). rewrite <- inject_Z_plus, <- Zle_Qle. lia. }
  destruct (py_round_cases q) as [[Hr H] | [Hr H]]; rewrite Hr in Hn.
  - lra.
  - rewrite inject_Z_plus in Hn. change (inject_Z 1) with 1%Q in Hn.
    assert (Hf : (inject_Z (Qfloor q) == inject_Z n)%Q) by lra.
    lra.
Qed.

Lemma ratio_bound (w m : Z) (scale : Q) :
  0 < w → (scale <= inject_Z m / inject_Z w)%Q →
  (inject_Z w * scale <= inject_Z m)%Q.
Proof.
  intros Hw Hs.
  assert (HwQ : (0 < inject_Z w)%Q).
  { change 0%Q with (inject_Z 0). rewrite <- Zlt_Qlt. exact Hw. }
  apply Qle_trans with (inject_Z w * (inject_Z m / inject_Z w))%Q.
  - apply Qmult_le_l; assumption.
  - rewrite Qmult_div_r; [apply Qle_refl|]. intros H. rewrite H in HwQ.
    apply (Qlt_irrefl _ HwQ).
Qed.

Lemma qmin_le_l (a b : Q) : (qmin a b <= a)%Q.
Proof. rewrite qmin_Qmin. apply Q.le_min_l. Qed.

Lemma qmin_le_r (a b : Q) : (qmin a b <= b)%Q.
Proof. rewrite qmin_Qmin. apply Q.le_min_r. Qed.

Section FitBox.

Variable lanczos : image -> Z -> Z -> Z -> Z -> rgba.

(** X3. For a positive box and an image with at least one pixel,
    [scale_to_fit] succeeds and its result never exceeds the box in
    either dimension, and never collapses below one pixel. *)
Theorem scale_to_fit_within_box (im : image) (max_width max_height : Z) :
  0 < max_width → 0 < max_height → 0 < width im → 0 < height im →
  ∃ out,
    scale_to_fit lanczos im max_width max_height = Ok out
    ∧ 1 ≤ width out ≤ max_width
    ∧ 1 ≤ height out ≤ max_height.
Proof.
  intros Hmw Hmh Hw Hh. unfold scale_to_fit, fit_scale.
  destruct (Z.leb_spec max_width 0); [lia|].
  destruct (Z.leb_spec max_height 0); [lia|].
  rewrite !py_div_ok by lia. cbn [orb rbind].
  set (rw := (inject_Z max_width / inject_Z (width im))%Q).
  set (rh := (inject_Z max_height / inject_Z (height im))%Q).
  set (scale := qmin (qmin rw rh) MAX_UPSCALE).
  assert (Hsw : (scale <= rw)%Q).
  { apply Qle_trans with (qmin rw rh); [apply qmin_le_l | apply qmin_le_l]. }
  assert (Hsh : (scale <= rh)%Q).
  { apply Qle_trans with (qmin rw rh); [apply qmin_le_l | apply qmin_le_r]. }
  pose proof (py_round_le _ _ (ratio_bound _ _ _ Hw Hsw)) as Hrw.
  pose proof (py_round_le _ _ (ratio_bound _ _ _ Hh Hsh)) as Hrh.
  destruct (Qeq_bool scale 1) eqn:E.
  - apply Qeq_bool_iff in E. exists im. split; [reflexivity|].
    rewrite (py_round_times_one _ _ E) in Hrw.
    rewrite (py_round_times_one _ _ E) in Hrh. lia.
  - eexists. split; [reflexivity|]. simpl. lia.
Qed.

End FitBox.

Lemma In_zrange (n x : Z) : In x (zrange n) ↔ 0 ≤ x < n.
Proof.
  unfold zrange. rewrite in_map_iff. split.
  - intros (i & <- & Hi). apply in_seq in Hi. lia.
  - intros Hx. exists (Z.to_nat x). split; [lia|]. apply in_seq. lia.
Qed.

Lemma fold_min_in (c : Z) (cs : list Z) (x : Z) :
  In x (c :: cs) → fold_right Z.min c cs ≤ x.
Proof.
  induction cs as [|a cs IH]; simpl.
  - intros [<- | []]. lia.
  - intros [<- | [<- | Hin]]; [|lia|].
    + pose proof (IH (or_introl eq_refl)). lia.
    + pose proof (IH (or_intror Hin)). lia.
Qed.

Lemma fold_max_in (c : Z) (cs : list Z) (x : Z) :
  In x (c :: cs) → x ≤ fold_right Z.max c cs.
Proof.
  induction cs as [|a cs IH]; simpl.
  - intros [<- | []]. lia.
  - intros [<- | [<- | Hin]]; [|lia|].
    + pose proof (IH (or_introl eq_refl)). lia.
    + pose proof (IH (or_intror Hin)). lia.
Qed.

Lemma fold_min_bound (lo : Z) (c : Z) (cs : list Z) :
  (∀ x, In x (c :: cs) → lo ≤ x) → lo ≤ fold_right Z.min c cs.
Proof.
  induction cs as [|a cs IH]; simpl; intros H.
  - apply H. left. reflexivity.
  - assert (lo ≤ a) by (apply H; right; left; reflexivity).
    assert (lo ≤ fold_right Z.min c cs).
    { apply IH. intros x [<- | Hin]; apply H; [left | right; right]; auto. }
    lia.
Qed.

Lemma fold_max_bound (hi : Z) (c : Z) (cs : list Z) :
  (∀ x, In x (c :: cs) → x < hi) → fold_right Z.max c cs < hi.
Proof.
  induction cs as [|a cs IH]; simpl; intros H.
  - apply H. left. reflexivity.
  - assert (a < hi) by (apply H; right; left; reflexivity).
    assert (fold_right Z.max c cs < hi).
    { apply IH. intros x [<- | Hin]; apply H; [left | right; right]; auto. }
    lia.
Qed.

(** The bounding box, when there is one: inside the band, and around
    every non-zero level. *)
Lemma getbbox_some (b : band) x0 y0 x1 y1 :
  getbbox b = Some (x0, y0, x1, y1) →
  0 ≤ x0 ∧ x0 < x1 ∧ x1 ≤ band_width b ∧ 0 ≤ y0 ∧ y0 < y1 ∧ y1 ≤ band_height b
  ∧ ∀ x y, 0 ≤ x < band_width b → 0 ≤ y < band_height b → level b x y ≠ 0 →
           x0 ≤ x < x1 ∧ y0 ≤ y < y1.
Proof.
  unfold getbbox.
  set (col_hit := fun x => existsb (fun y => negb (Z.eqb (level b x y) 0))
                                    (zrange (band_height b))).
  set (row_hit := fun y => existsb (fun x => negb (Z.eqb (level b x y) 0))
                                    (zrange (band_width b))).
  destruct (List.filter col_hit (zrange (band_width b))) as [|c cs] eqn:Ec;
    [discriminate|].
  destruct (List.filter row_hit (zrange (band_height b))) as [|r rs] eqn:Er;
    [discriminate|].
  intros [= <- <- <- <-].
  assert (Hcols : ∀ x, In x (c :: cs) → 0 ≤ x < band_width b).
  { intros x Hin. rewrite <- Ec in Hin. apply filter_In in Hin as [Hin _].
    apply In_zrange, Hin. }
  assert (Hrows : ∀ y, In y (r :: rs) → 0 ≤ y < band_height b).
  { intros y Hin. rewrite <- Er in Hin. apply filter_In in Hin as [Hin _].
    apply In_zrange, Hin. }
  pose proof (fold_min_bound 0 c cs (fun x H => proj1 (Hcols x H))).
  pose proof (fold_max_bound (band_width b) c cs (fun x H => proj2 (Hcols x H))).
  pose proof (fold_min_bound 0 r rs (fun x H => proj1 (Hrows x H))).
  pose proof (fold_max_bound (band_height b) r rs (fun x H => proj2 (Hrows x H))).
  pose proof (fold_min_le c cs). pose proof (fold_max_ge c cs).
  pose proof (fold_min_le r rs). pose proof (fold_max_ge r rs).
  repeat (split; [lia|]).
  intros x y Hx Hy Hlevel.
  assert (Hxc : In x (c :: cs)).
  { rewrite <- Ec. apply filter_In. split; [apply In_zrange, Hx|].
    unfold col_hit. apply existsb_exists. exists y. split; [apply In_zrange, Hy|].
    apply negb_true_iff. apply Z.eqb_neq, Hlevel. }
  assert (Hyr : In y (r :: rs)).
  { rewrite <- Er. apply filter_In. split; [apply In_zrange, Hy|].
    unfold row_hit. apply existsb_exists. exists x. split; [apply In_zrange, Hx|].
    apply negb_true_iff. apply Z.eqb_neq, Hlevel. }
  pose proof (fold_min_in c cs x Hxc). pose proof (fold_max_in c cs x Hxc).
  pose proof (fold_min_in r rs y Hyr). pose proof (fold_max_in r rs y Hyr).
  lia.
Qed.

Lemma getbbox_none (b : band) :
  getbbox b = None →
  ∀ x y, 0 ≤ x < band_width b → 0 ≤ y < band_height b → level b x y = 0.
Proof.
  unfold getbbox.
  set (col_hit := fun x => existsb (fun y => negb (Z.eqb (level b x y) 0))
                                    (zrange (band_height b))).
  set (row_hit := fun y => existsb (fun x => negb (Z.eqb (level b x y) 0))
                                    (zrange (band_width b))).
  intros Hnone x y Hx Hy.
  destruct (Z.eq_dec (level b x y) 0) as [Hz | Hnz]; [exact Hz|]. exfalso.
  assert (Hxc : In x (List.filter col_hit (zrange (band_width b)))).
  { apply filter_In. split; [apply In_zrange, Hx|].
    unfold col_hit. apply existsb_exists. exists y. split; [apply In_zrange, Hy|].
    apply negb_true_iff. apply Z.eqb_neq, Hnz. }
  assert (Hyr : In y (List.filter row_hit (zrange (band_height b)))).
  { apply filter_In. split; [apply In_zrange, Hy|].
    unfold row_hit. apply existsb_exists. exists x. split; [apply In_zrange, Hx|].
    apply negb_true_iff. apply Z.eqb_neq, Hnz. }
  destruct (List.filter col_hit (zrange (band_width b))) as [|c cs]; [destruct Hxc|].
  destruct (List.filter row_hit (zrange (band_height b))) as [|r rs]; [destruct Hyr|].
  discriminate.
Qed.

Lemma getbbox_visible (b : band) (box : Z * Z * Z * Z) :
  getbbox b = Some box →
  ∃ x y, 0 ≤ x < band_width b ∧ 0 ≤ y < band_height b ∧ level b x y ≠ 0.
Proof.
  unfold getbbox.
  set (col_hit := fun x => existsb (fun y => negb (Z.eqb (level b x y) 0))
                                    (zrange (band_height b))).
  destruct (List.filter col_hit (zrange (band_width b))) as [|c cs] eqn:Ec;
    [discriminate|].
  intros _.
  assert (Hc : In c (List.filter col_hit (zrange (band_width b)))).
  { rewrite Ec. left. reflexivity. }
  apply filter_In in Hc as [Hc Hhit]. apply In_zrange in Hc.
  unfold col_hit in Hhit. apply existsb_exists in Hhit as (y & Hy & Hlevel).
  apply In_zrange in Hy. apply negb_true_iff, Z.eqb_neq in Hlevel.
  exists c, y. auto.
Qed.

(** X4. [crop_transparent] never cuts a visible pixel and never grows
    the image.  Without any pixel of non-zero alpha the image comes back
    as it is.  Otherwise the result is a non-empty window of the image,
    anchored at the corner of the bounding box, that shows the image's
    pixels at their shifted positions and contains every pixel whose
    alpha is not zero. *)
Theorem crop_transparent_keeps_visible (im : image) :
  ((∀ x y, 0 ≤ x < width im → 0 ≤ y < height im → alpha (pixel im x y) = 0) →
   crop_transparent im = im)
  ∧ match getbbox (alpha_band im) with
    | None =>
        crop_transparent im = im
        ∧ ∀ x y, 0 ≤ x < width im → 0 ≤ y < height im → alpha (pixel im x y) = 0
    | Some (x0, y0, _, _) =>
        (∃ x y, 0 ≤ x < width im ∧ 0 ≤ y < height im ∧ alpha (pixel im x y) ≠ 0)
        ∧ 0 ≤ x0 ∧ 0 ≤ y0
        ∧ 0 < width (crop_transparent im) ∧ 0 < height (crop_transparent im)
        ∧ x0 + width (crop_transparent im) ≤ width im
        ∧ y0 + height (crop_transparent im) ≤ height im
        ∧ (∀ x y, pixel (crop_transparent im) x y = pixel im (x + x0) (y + y0))
        ∧ (∀ x y, 0 ≤ x < width im → 0 ≤ y < height im → alpha (pixel im x y) ≠ 0 →
                  0 ≤ x - x0 < width (crop_transparent im)
                  ∧ 0 ≤ y - y0 < height (crop_transparent im))
    end.
Proof.
  unfold crop_transparent.
  destruct (getbbox (alpha_band im)) as [[[[x0 y0] x1] y1]|] eqn:E.
  - pose proof (getbbox_visible _ _ E) as Hvis. simpl in Hvis.
    split.
    { intros Hzero. destruct Hvis as (x & y & Hx & Hy & Ha).
      elim Ha. exact (Hzero x y Hx Hy). }
    split; [exact Hvis|].
    apply getbbox_some in E as (H1 & H2 & H3 & H4 & H5 & H6 & Hin).
    simpl in H3, H6, Hin. simpl.
    repeat (split; [lia|]). split; [reflexivity|].
    intros x y Hx Hy Ha. specialize (Hin x y Hx Hy Ha). lia.
  - split; [reflexivity|]. split; [reflexivity|]. exact (getbbox_none _ E).
Qed.

(** ** Wrapping and fitting *)

Lemma join_cons (sep x : string) (rest : list string) :
  rest ≠ [] → join sep (x :: rest) = x ++ sep ++ join sep rest.
Proof. destruct rest; [contradiction | reflexivity]. Qed.

Lemma join_merge (l1 l2 : list string) (a b : string) :
  join " " (l1 ++ (a ++ " " ++ b) :: l2) = join " " (l1 ++ a :: b :: l2).
Proof.
  induction l1 as [|x l1 IH].
  - simpl app. rewrite (join_cons " " a (b :: l2)) by discriminate.
    destruct l2 as [|c l2].
    + reflexivity.
    + rewrite !join_cons by discriminate. rewrite !string_app_assoc. reflexivity.
  - change ((x :: l1) ++ ?t)%list with (x :: (l1 ++ t))%list.
    rewrite !join_cons by (destruct l1; discriminate). rewrite IH. reflexivity.
Qed.

Lemma range_down2_shape start n x :
  In x (range_down2 start n) → ∃ i, 0 ≤ i ∧ x = start - 2 * i.
Proof.
  revert start. induction n as [|n IH]; intros start; simpl; [tauto|].
  intros [<- | Hin].
  - exists 0. lia.
  - apply IH in Hin as (i & Hi & ->). exists (i + 1). lia.
Qed.

Section Wrapping.

Variable text_width : Z -> string -> Z.

Lemma wrap_loop_lines font max_width max_lines words :
  ∀ lines current res,
    Forall (fun l => text_width font l ≤ max_width) lines →
    text_width font current ≤ max_width →
    wrap_loop text_width font max_width max_lines words lines current = Some res →
    Forall (fun l => text_width font l ≤ max_width) res
    ∧ 1 ≤ len res ≤ max_lines
    ∧ join " " res = join " " (lines ++ current :: words).
Proof.
  induction words as [|word rest IH]; intros lines current res Hlines Hcur; simpl.
  - destruct (Z.gtb_spec (len (lines ++ [current])) max_lines); [discriminate|].
    intros [= <-]. split; [|split].
    + apply Forall_app. split; [exact Hlines | constructor; [exact Hcur | constructor]].
    + unfold len in *. rewrite length_app in *. simpl in *. lia.
    + reflexivity.
  - destruct (Z.leb_spec (text_width font (current ++ " " ++ word)) max_width) as [Hfit|].
    + intros Hres. apply IH in Hres as (H1 & H2 & H3); [|exact Hlines|exact Hfit].
      split; [exact H1|]. split; [exact H2|]. rewrite H3. apply join_merge.
    + destruct (Z.gtb_spec (text_width font word) max_width) as [|Hword];
        [discriminate|].
      destruct (len (lines ++ [current]) >=? max_lines); [discriminate|].
      intros Hres. apply IH in Hres as (H1 & H2 & H3).
      * split; [exact H1|]. split; [exact H2|]. rewrite H3, <- app_assoc. reflexivity.
      * apply Forall_app. split; [exact Hlines | constructor; [exact Hcur | constructor]].
      * lia.
Qed.

Lemma wrap_text_shape (text : string) (font max_width max_lines : Z)
    (lines : list string) :
  wrap_text text_width text font max_width max_lines = Some lines →
  join " " lines = join " " (split text)
  ∧ ((split text = [] ∧ lines = [""])
     ∨ (split text ≠ []
        ∧ 1 ≤ len lines ≤ max_lines
        ∧ Forall (fun l => text_width font l ≤ max_width) lines)).
Proof.
  unfold wrap_text. destruct (split text) as [|first rest].
  - intros [= <-]. split; [reflexivity|]. left. auto.
  - destruct (Z.gtb_spec (text_width font first) max_width); [discriminate|].
    intros Hres. apply wrap_loop_lines in Hres as (H1 & H2 & H3); [|constructor|lia].
    split; [exact H3|]. right. split; [discriminate|]. auto.
Qed.

(** X6. A text that wraps yields between one and [max_lines] lines, none
    wider than [max_width], and the lines joined by single spaces are the
    words of the text joined by single spaces: wrapping only turns
    spaces into line breaks.  A text without words yields the single
    empty line. *)
Theorem wrap_text_lines (text : string) (font max_width max_lines : Z)
    (lines : list string) :
  wrap_text text_width text font max_width max_lines = Some lines →
  join " " lines = join " " (split text)
  ∧ ((split text = [] ∧ lines = [""])
     ∨ (split text ≠ []
        ∧ 1 ≤ len lines ≤ max_lines
        ∧ Forall (fun l => text_width font l ≤ max_width) lines)).
Proof. apply wrap_text_shape. Qed.

Lemma wrap_loop_more_lines font max_width l1 l2 words :
  l1 ≤ l2 →
  ∀ lines current res,
    wrap_loop text_width font max_width l1 words lines current = Some res →
    wrap_loop text_width font max_width l2 words lines current = Some res.
Proof.
  intros Hl. induction words as [|word rest IH]; intros lines current res; simpl.
  - destruct (Z.gtb_spec (len (lines ++ [current])) l1); [discriminate|].
    destruct (Z.gtb_spec (len (lines ++ [current])) l2); [lia|]. auto.
  - destruct (text_width font (current ++ " " ++ word) <=? max_width); [apply IH|].
    destruct (text_width font word >? max_width); [discriminate|].
    destruct (Z.geb_spec (len (lines ++ [current])) l1); [discriminate|].
    destruct (Z.geb_spec (len (lines ++ [current])) l2); [lia|]. apply IH.
Qed.

Lemma wrap_text_more_lines text font max_width l1 l2 res :
  l1 ≤ l2 →
  wrap_text text_width text font max_width l1 = Some res →
  wrap_text text_width text font max_width l2 = Some res.
Proof.
  intros Hl. unfold wrap_text. destruct (split text); [auto|].
  destruct (text_width font s >? max_width); [discriminate|].
  apply wrap_loop_more_lines, Hl.
Qed.

(** The first size of a descending range that wraps is at least every
    size of the range that wraps. *)
Lemma fit_loop_largest text max_width max_lines n :
  ∀ start size lines,
    fit_loop text_width text max_width max_lines (range_down2 start n)
      = Some (size, lines) →
    ∀ s, In s (range_down2 start n) →
         is_Some (wrap_text text_width text s max_width max_lines) → s ≤ size.
Proof.
  induction n as [|n IH]; intros start size lines; simpl; [discriminate|].
  destruct (wrap_text text_width text start max_width max_lines) as [l|] eqn:E.
  - intros [= <- <-] s [<- | Hin] _; [lia|].
    apply range_down2_bounds in Hin. lia.
  - intros H s [<- | Hin] Hs.
    + rewrite E in Hs. destruct Hs as [? [=]].
    + eapply IH; eassumption.
Qed.

Lemma fit_loop_none_inv text max_width max_lines sizes :
  fit_loop text_width text max_width max_lines sizes = None →
  ∀ s, In s sizes → wrap_text text_width text s max_width max_lines = None.
Proof.
  induction sizes as [|x rest IH]; simpl; [tauto|].
  destruct (wrap_text text_width text x max_width max_lines) eqn:E; [discriminate|].
  intros H s [<- | Hin]; [exact E | apply IH; assumption].
Qed.

(** X7. When some size of the stepped range wraps, [fit_text] returns a
    size of that range that wraps, together with its lines, and no
    larger size of the range wraps: the largest fitting size is chosen. *)
Theorem fit_text_picks_largest (text : string)
    (max_size min_size max_width max_lines : Z) (s : Z) (ls : list string) :
  In s (py_range_down2 max_size (min_size - 1)) →
  wrap_text text_width text s max_width max_lines = Some ls →
  let r := fit_text text_width text max_size min_size max_width max_lines in
  In (fst r) (py_range_down2 max_size (min_size - 1))
  ∧ wrap_text text_width text (fst r) max_width max_lines = Some (snd r)
  ∧ s ≤ fst r
  ∧ ∀ s', In s' (py_range_down2 max_size (min_size - 1)) → fst r < s' →
          wrap_text text_width text s' max_width max_lines = None.
Proof.
  intros Hin Hs r. subst r. unfold fit_text.
  destruct (fit_loop text_width text max_width max_lines
              (py_range_down2 max_size (min_size - 1))) as [[size lines]|] eqn:E.
  - pose proof (fit_loop_largest _ _ _ _ _ _ _ E) as Hmax.
    apply (fit_loop_some text_width) in E as [Hsize Hwrap]. simpl.
    split; [exact Hsize|]. split; [exact Hwrap|]. split.
    + apply Hmax; [exact Hin | rewrite Hs; eauto].
    + intros s' Hin' Hlt.
      destruct (wrap_text text_width text s' max_width max_lines) eqn:E'; [|reflexivity].
      assert (s' ≤ size) by (apply Hmax; [exact Hin' | rewrite E'; eauto]). lia.
  - rewrite (fit_loop_none_inv _ _ _ _ E s Hin) in Hs. discriminate.
Qed.

Lemma fit_text_size_shape (text : string)
    (max_size min_size max_width max_lines : Z) :
  let r := fit_text text_width text max_size min_size max_width max_lines in
  snd r ≠ []
  ∧ (fst r = min_size
     ∨ (min_size ≤ fst r ≤ max_size ∧ Z.even (max_size - fst r) = true)).
Proof.
  intros r. subst r. unfold fit_text.
  destruct (fit_loop text_width text max_width max_lines
              (py_range_down2 max_size (min_size - 1))) as [[size lines]|] eqn:E.
  - apply (fit_loop_some text_width) in E as [Hsize Hwrap]. simpl. split.
    + apply wrap_text_shape in Hwrap as [_ [[_ ->] | (_ & Hlen & _)]]; [discriminate|].
      intros ->. unfold len in Hlen. simpl in Hlen. lia.
    + right. pose proof (py_range_down2_lower _ _ _ Hsize).
      unfold py_range_down2 in Hsize.
      pose proof (range_down2_bounds _ _ _ Hsize).
      apply range_down2_shape in Hsize as (i & Hi & ->).
      split; [lia|]. replace (max_size - (max_size - 2 * i)) with (2 * i) by lia.
      rewrite Z.even_mul. reflexivity.
  - destruct (wrap_text text_width text min_size max_width max_lines) as [lines|] eqn:Hw;
      simpl.
    + split; [|left; reflexivity].
      apply wrap_text_shape in Hw as [_ [[_ ->] | (_ & Hlen & _)]]; [discriminate|].
      intros ->. unfold len in Hlen. simpl in Hlen. lia.
    + split; [discriminate | left; reflexivity].
Qed.

(** X8. Whatever the inputs, [fit_text] returns at least one line and a
    size that is [min_size] or lies between [min_size] and [max_size] at
    an even distance below [max_size]. *)
Theorem fit_text_size_range (text : string)
    (max_size min_size max_width max_lines : Z) :
  let r := fit_text text_width text max_size min_size max_width max_lines in
  snd r ≠ []
  ∧ (fst r = min_size
     ∨ (min_size ≤ fst r ≤ max_size ∧ Z.even (max_size - fst r) = true)).
Proof. apply fit_text_size_shape. Qed.

(** X9. Allowing more lines never shrinks the font: for
    [l1 ≤ l2] the size chosen with [max_lines = l1] is at most the size
    chosen with [max_lines = l2]. *)
Theorem fit_text_size_monotone_lines (text : string)
    (max_size min_size max_width l1 l2 : Z) :
  l1 ≤ l2 →
  fst (fit_text text_width text max_size min_size max_width l1)
  ≤ fst (fit_text text_width text max_size min_size max_width l2).
Proof.
  intros Hl.
  pose proof (fit_text_size_shape text max_size min_size max_width l2) as [_ Hr2].
  unfold fit_text in *.
  destruct (fit_loop text_width text max_width l1
              (py_range_down2 max_size (min_size - 1))) as [[s1 ls1]|] eqn:E1.
  - apply (fit_loop_some text_width) in E1 as [Hin1 Hw1]. simpl.
    apply (wrap_text_more_lines _ _ _ _ _ _ Hl) in Hw1.
    destruct (fit_loop text_width text max_width l2
                (py_range_down2 max_size (min_size - 1))) as [[s2 ls2]|] eqn:E2.
    + simpl. eapply fit_loop_largest; [exact E2 | exact Hin1 | rewrite Hw1; eauto].
    + rewrite (fit_loop_none_inv _ _ _ _ E2 s1 Hin1) in Hw1. discriminate.
  - assert (Hmin : fst (match wrap_text text_width text min_size max_width l1 with
                        | Some lines => (min_size, lines)
                        | None => (min_size, [truncate_text text_width text min_size max_width])
                        end) = min_size).
    { destruct (wrap_text text_width text min_size max_width l1); reflexivity. }
    rewrite Hmin. destruct Hr2 as [-> | [H _]]; lia.
Qed.

End Wrapping.

Lemma wrap_text_lines_witness :
  join " " ["Grand"; "Finals"] = join " " (split "  Grand   Finals ")
  ∧ ((split "  Grand   Finals " = [] ∧ ["Grand"; "Finals"] = [""])
     ∨ (split "  Grand   Finals " ≠ []
        ∧ 1 ≤ len ["Grand"; "Finals"] ≤ 2
        ∧ Forall (fun l => fixed_pitch 10 l ≤ 60) ["Grand"; "Finals"])).
Proof.
  apply (wrap_text_lines fixed_pitch "  Grand   Finals " 10 60 2). reflexivity.
Defined.

Lemma fit_text_picks_largest_witness :
  let r := fit_text fixed_pitch "Grand Finals" 10 4 60 1 in
  In (fst r) (py_range_down2 10 (4 - 1))
  ∧ wrap_text fixed_pitch "Grand Finals" (fst r) 60 1 = Some (snd r)
  ∧ 4 ≤ fst r
  ∧ ∀ s', In s' (py_range_down2 10 (4 - 1)) → fst r < s' →
          wrap_text fixed_pitch "Grand Finals" s' 60 1 = None.
Proof.
  apply (fit_text_picks_largest fixed_pitch "Grand Finals" 10 4 60 1 4 ["Grand Finals"]).
  - vm_compute. tauto.
  - reflexivity.
Defined.

Lemma fit_text_size_monotone_lines_witness :
  fst (fit_text fixed_pitch "Grand Finals" 10 4 60 1)
  ≤ fst (fit_text fixed_pitch "Grand Finals" 10 4 60 2).
Proof.
  apply (fit_text_size_monotone_lines fixed_pitch). lia.
Defined.

(** ** Asset locator *)

(** X10. [find_image_file] returns a file of the directory whose
    normalised stem equals the normalised stem asked for, the file with
    exactly that stem when there is one; and it returns nothing only if
    no stem of the directory normalises to the same token. *)
Theorem find_image_file_match (d : directory) (wanted : string) :
  match find_image_file d wanted with
  | Some f =>
      In f (png_files d)
      ∧ normalize_token (stem f) = normalize_token wanted
      ∧ ((∃ g, In g (png_files d) ∧ stem g = wanted) → stem f = wanted)
  | None =>
      ∀ g, In g (png_files d) → normalize_token (stem g) ≠ normalize_token wanted
  end.
Proof.
  unfold find_image_file.
  destruct (List.find (fun f => String.eqb (stem f) wanted) (png_files d))
    as [direct|] eqn:E.
  - apply find_some in E as [Hin He]. apply String.eqb_eq in He.
    split; [exact Hin|]. split; [now rewrite He | intros _; exact He].
  - destruct (List.find (fun f => String.eqb (normalize_token (stem f))
                                    (normalize_token wanted)) (png_files d))
      as [f|] eqn:E2.
    + apply find_some in E2 as [Hin He]. apply String.eqb_eq in He.
      split; [exact Hin|]. split; [exact He|].
      intros (g & Hg & Hs). apply (find_none _ _ E) in Hg.
      apply String.eqb_neq in Hg. contradiction.
    + intros g Hg. apply (find_none _ _ E2) in Hg. apply String.eqb_neq, Hg.
Qed.

(** X11. [resolve_character_dir] returns a sub-directory whose
    normalised name equals the normalised character name, and the
    sub-directory named exactly like the character whenever one exists. *)
Theorem resolve_character_dir_match (root : character_root) (character : string)
    (d : directory) :
  resolve_character_dir root character = Ok d →
  In d (subdirs root)
  ∧ normalize_token (dir_name d) = normalize_token character
  ∧ ((∃ e, In e (subdirs root) ∧ dir_name e = character) → dir_name d = character).
Proof.
  unfold resolve_character_dir.
  destruct (List.find (fun d => String.eqb (dir_name d) character) (subdirs root))
    as [c|] eqn:E.
  - intros [= <-]. apply find_some in E as [Hin He]. apply String.eqb_eq in He.
    split; [exact Hin|]. split; [now rewrite He | intros _; exact He].
  - destruct (List.find (fun d => String.eqb (normalize_token (dir_name d))
                                    (normalize_token character)) (subdirs root))
      as [c|] eqn:E2; [|discriminate].
    intros [= <-]. apply find_some in E2 as [Hin He]. apply String.eqb_eq in He.
    split; [exact Hin|]. split; [exact He|].
    intros (e & Hine & Hs). apply (find_none _ _ E) in Hine.
    apply String.eqb_neq in Hine. contradiction.
Qed.

Lemma roy_loop_inv (d : directory) (candidates : list string) f m c :
  roy_loop d candidates = Some (f, m, c) →
  In c candidates ∧ m = true ∧ find_image_file d (c ++ " Left") = Some f.
Proof.
  induction candidates as [|x rest IH]; simpl; [discriminate|].
  destruct (find_image_file d (x ++ " Left")) as [lp|] eqn:E.
  - intros [= <- <- <-]. auto.
  - intros H. apply IH in H as (? & ? & ?). auto.
Qed.

Lemma plain_loop_inv (d : directory) (candidates : list string) f m c :
  plain_loop d candidates = Some (f, m, c) →
  In c candidates ∧ m = false ∧ find_image_file d c = Some f.
Proof.
  induction candidates as [|x rest IH]; simpl; [discriminate|].
  destruct (find_image_file d x) as [p|] eqn:E.
  - intros [= <- <- <-]. auto.
  - intros H. apply IH in H as (? & ? & ?). auto.
Qed.

Lemma vs_candidate_inv (d : directory) (side : string) (mw mh : option Z)
    (candidate : string) f m c :
  vs_candidate d side mw mh candidate = Ok (Some (f, m, c)) →
  c = candidate
  ∧ (m = true → side ≠ "Left" ∧ find_image_file d (c ++ " Left") = Some f)
  ∧ (m = false →
       find_image_file d (c ++ (if String.eqb side "Left" then " Left" else " Right"))
       = Some f).
Proof.
  unfold vs_candidate. destruct (String.eqb_spec side "Left") as [-> | Hside].
  - destruct (find_image_file d (candidate ++ " Left")) as [p|] eqn:E; [|discriminate].
    intros [= <- <- <-]. split; [reflexivity|]. split; [discriminate | auto].
  - destruct (find_image_file d (candidate ++ " Right")) as [rp|] eqn:Er;
    destruct (find_image_file d (candidate ++ " Left")) as [lp|] eqn:El;
    destruct (given mw) as [w|]; destruct (given mh) as [h|]; cbn [rbind];
      try discriminate;
      try (intros [= <- <- <-]; (split; [reflexivity|]); split; intros Hm;
           try discriminate Hm; auto).
    destruct (scaled_height_for_path rp w h) as [rh|]; [|discriminate]. cbn [rbind].
    destruct (scaled_height_for_path lp w h) as [lh|]; [|discriminate]. cbn [rbind].
    destruct (PrimFloat.ltb rh (PrimFloat.mul lh RIGHT_SIDE_HEIGHT_RATIO));
      intros [= <- <- <-];
      (split; [reflexivity|]); split; intros Hm; try discriminate Hm; auto.
Qed.

Lemma vs_loop_inv (d : directory) (side : string) (mw mh : option Z)
    (candidates : list string) f m c :
  vs_loop d side mw mh candidates = Ok (Some (f, m, c)) →
  In c candidates
  ∧ (m = true → side ≠ "Left" ∧ find_image_file d (c ++ " Left") = Some f)
  ∧ (m = false →
       find_image_file d (c ++ (if String.eqb side "Left" then " Left" else " Right"))
       = Some f).
Proof.
  induction candidates as [|x rest IH]; simpl; [discriminate|].
  destruct (vs_candidate d side mw mh x) as [[hit|]|] eqn:E; cbn [rbind];
    [| |discriminate].
  - intros [= ->]. apply vs_candidate_inv in E as (-> & H1 & H2). auto.
  - intros H. apply IH in H as (? & ? & ?). auto.
Qed.

(** X12. What a successful lookup returns: a file of the directory
    resolved for the character, found under one of the colour candidates
    (the requested colour or ["Default"]).  A mirrored result occurs only
    in the [vs_screen] set for a side other than ["Left"], and is then
    the candidate's left file; an unmirrored result is the candidate's
    file for the side asked for (the plain file outside [vs_screen]). *)
Theorem resolve_character_image_sound (root : character_root)
    (character color side character_set : string) (max_width max_height : option Z)
    (file : png_file) (mirror : bool) (used : string) :
  resolve_character_image root character color side character_set
    max_width max_height = Ok (file, mirror, used) →
  ∃ d, resolve_character_dir root character = Ok d
       ∧ In file (png_files d)
       ∧ In used (color_candidates color)
       ∧ (mirror = true →
            character_set = "vs_screen" ∧ side ≠ "Left"
            ∧ find_image_file d (used ++ " Left") = Some file)
       ∧ (mirror = false →
            find_image_file d
              (if String.eqb character_set "vs_screen"
               then used ++ (if String.eqb side "Left" then " Left" else " Right")
               else used) = Some file).
Proof.
  unfold resolve_character_image.
  destruct (resolve_character_dir root character) as [d|] eqn:Hd; [|discriminate].
  cbn [rbind]. intros H. exists d. split; [reflexivity|].
  destruct (String.eqb_spec character_set "vs_screen") as [-> | Hset].
  - destruct (String.eqb_spec side "Right") as [-> | Hside]; cbn [andb] in H.
    + destruct (String.eqb (normalize_token character) "roy").
      * destruct (roy_loop d (color_candidates color)) as [[[f m] c]|] eqn:Hr.
        -- injection H as -> -> ->. apply roy_loop_inv in Hr as (Hin & -> & Hf).
           split; [eapply find_image_file_in, Hf|]. split; [exact Hin|].
           split; [intros _; split; [reflexivity|]; split; [discriminate | exact Hf]|].
           discriminate.
        -- destruct (vs_loop d "Right" max_width max_height (color_candidates color))
             as [[[[f m] c]|]|] eqn:Hv; cbn [rbind] in H; try discriminate.
           injection H as -> -> ->. apply vs_loop_inv in Hv as (Hin & H1 & H2).
           split; [|split; [exact Hin|]].
           ++ destruct mirror; [eapply find_image_file_in, H1 | eapply find_image_file_in, H2];
                reflexivity.
           ++ split; [intros Hm; destruct (H1 Hm); auto | exact H2].
      * destruct (vs_loop d "Right" max_width max_height (color_candidates color))
          as [[[[f m] c]|]|] eqn:Hv; cbn [rbind] in H; try discriminate.
        injection H as -> -> ->. apply vs_loop_inv in Hv as (Hin & H1 & H2).
        split; [|split; [exact Hin|]].
        -- destruct mirror; [eapply find_image_file_in, H1 | eapply find_image_file_in, H2];
             reflexivity.
        -- split; [intros Hm; destruct (H1 Hm); auto | exact H2].
    + destruct (vs_loop d side max_width max_height (color_candidates color))
        as [[[[f m] c]|]|] eqn:Hv; cbn [rbind] in H; try discriminate.
      injection H as -> -> ->. apply vs_loop_inv in Hv as (Hin & H1 & H2).
      split; [|split; [exact Hin|]].
      * destruct mirror; [eapply find_image_file_in, H1 | eapply find_image_file_in, H2];
          reflexivity.
      * split; [intros Hm; destruct (H1 Hm); auto | exact H2].
  - destruct (plain_loop d (color_candidates color)) as [[[f m] c]|] eqn:Hp;
      [|discriminate].
    injection H as -> -> ->. apply plain_loop_inv in Hp as (Hin & -> & Hf).
    split; [eapply find_image_file_in, Hf|]. split; [exact Hin|].
    split; [discriminate | intros _; exact Hf].
Qed.

Lemma roy_loop_skip (d : directory) (skipped rest : list string) :
  (∀ c, In c skipped → find_image_file d (c ++ " Left") = None) →
  roy_loop d (skipped ++ rest) = roy_loop d rest.
Proof.
  induction skipped as [|c skipped IH]; intros Hnone; [reflexivity|].
  simpl. rewrite (Hnone c) by (left; reflexivity).
  apply IH. intros c' Hin. apply Hnone. right. exact Hin.
Qed.

(** X13. The hard-coded rule for Roy: a right-side lookup in the
    [vs_screen] set returns the mirrored left file of the first colour
    candidate that has one, whatever right files exist and whatever the
    fitted heights would say. *)
Theorem roy_right_side_forced (root : character_root) (character color : string)
    (max_width max_height : option Z) (d : directory)
    (skipped rest : list string) (candidate : string) (left_path : png_file) :
  normalize_token character = "roy" →
  resolve_character_dir root character = Ok d →
  color_candidates color = (skipped ++ candidate :: rest)%list →
  (∀ c, In c skipped → find_image_file d (c ++ " Left") = None) →
  find_image_file d (candidate ++ " Left") = Some left_path →
  resolve_character_image root character color "Right" "vs_screen"
    max_width max_height = Ok (left_path, true, candidate).
Proof.
  intros Hroy Hd Hcands Hskip Hleft. unfold resolve_character_image.
  rewrite Hd. cbn [rbind]. rewrite Hroy, Hcands, (roy_loop_skip d _ _ Hskip).
  simpl. rewrite Hleft. reflexivity.
Qed.

(** ** Override cascade, continued *)

(** X14. [scale] and [offset_y] cascade without any sign change: the
    side block wins over the base block, which wins over the defaults;
    without an entry the defaults' value is returned. *)
Theorem resolve_scale_offset_y_cascade (ov : overrides) (character side key : string)
    (left_side : bool) :
  lower side = (if left_side then "left" else "right") →
  key = "scale" ∨ key = "offset_y" →
  let entry := characters ov !! normalize_token character in
  let res := resolve_character_override ov character side in
  ((entry = None ∨ entry = Some ∅) → res !! key = defaults ov !! key)
  ∧ (∀ e, entry = Some e → e ≠ ∅ →
       let block := default ∅ (e !! (if left_side then "left" else "right")) in
       let base := default ∅ (e !! "base") in
       res !! key =
         match block !! key with
         | Some v => Some v
         | None => match base !! key with
                   | Some v => Some v
                   | None => defaults ov !! key
                   end
         end).
Proof.
  intros Hside Hkey entry res.
  assert (Hne : "offset_x" ≠ key) by (destruct Hkey as [-> | ->]; discriminate).
  assert (Hk3 : key = "scale" ∨ key = "offset_x" ∨ key = "offset_y") by tauto.
  assert (Hsel : String.eqb (lower side) "left" = left_side).
  { rewrite Hside. destruct left_side; reflexivity. }
  split.
  - intros [He | He]; subst res; unfold resolve_character_override; fold entry;
      rewrite He.
    + rewrite lookup_insert_ne by exact Hne. reflexivity.
    + rewrite decide_True by done. rewrite lookup_insert_ne by exact Hne. reflexivity.
  - intros e He Hnonempty block base. subst res.
    unfold resolve_character_override. fold entry. rewrite He, decide_False by done.
    rewrite lookup_insert_ne by exact Hne. rewrite Hsel.
    assert (Hblock : (if left_side then default ∅ (e !! "left")
                      else default ∅ (e !! "right")) = block).
    { unfold block. destruct left_side; reflexivity. }
    rewrite Hblock. rewrite !merge_overrides_key by exact Hk3. reflexivity.
Qed.

Lemma resolve_scale_offset_y_cascade_witness :
  resolve_character_override sample_overrides "Fox" "Left" !! "scale"
  = defaults sample_overrides !! "scale".
Proof.
  apply (proj1 (resolve_scale_offset_y_cascade sample_overrides "Fox" "Left" "scale"
                  true eq_refl (or_introl eq_refl))).
  left. reflexivity.
Defined.

(** A block that carries no key besides the three handled ones. *)
Definition three_keys_only (d : gmap string pyval) : Prop :=
  ∀ k, k ≠ "scale" → k ≠ "offset_x" → k ≠ "offset_y" → d !! k = None.

Lemma parse_key_three members am key dflt caster acc d :
  (key = "scale" ∨ key = "offset_x" ∨ key = "offset_y") →
  three_keys_only acc →
  parse_key members am key dflt caster acc = Ok d → three_keys_only d.
Proof.
  intros Hkey Hacc H. apply parse_key_inv in H as [(_ & _ & ->) | (v & _ & ->)];
    [exact Hacc|].
  intros k H1 H2 H3. rewrite lookup_insert_ne; [apply Hacc; assumption|].
  destruct Hkey as [-> | [-> | ->]]; congruence.
Qed.

Lemma parse_override_block_three P j am d :
  parse_override_block P j am = Ok d → three_keys_only d.
Proof.
  destruct j; simpl;
    try (intros [= <-]; destruct am; intros k H1 H2 H3;
         [apply lookup_empty |
          unfold default_block; rewrite !lookup_insert_ne by congruence;
          apply lookup_empty]).
  destruct (parse_key members am "scale" _ _ ∅) as [r1|] eqn:H1; simpl; [|discriminate].
  destruct (parse_key members am "offset_x" _ _ r1) as [r2|] eqn:H2; simpl; [|discriminate].
  intros H3.
  apply parse_key_three in H1; [|tauto|intros k _ _ _; apply lookup_empty].
  apply parse_key_three in H2; [|tauto|exact H1].
  apply parse_key_three in H3; [exact H3|tauto|exact H2].
Qed.

Lemma load_defaults_three P payload ov :
  load_character_overrides_data P payload = Ok ov → three_keys_only (defaults ov).
Proof.
  destruct payload; simpl; try discriminate.
  - intros [= <-]. simpl. intros k H1 H2 H3. unfold default_block.
    rewrite !lookup_insert_ne by congruence. apply lookup_empty.
  - destruct (parse_override_block P (jget_none members "defaults") false) as [d|] eqn:Hd;
      [|discriminate].
    cbn [rbind].
    match goal with |- (items <-- ?X ;; _) = _ → _ => destruct X as [items|] end;
      [|discriminate].
    cbn [rbind].
    destruct (load_characters P items ∅) as [cs|]; [|discriminate].
    cbn [rbind]. intros [= <-]. simpl. eapply parse_override_block_three, Hd.
Qed.

Lemma merge_over_full (d d' base : gmap string pyval) :
  three_keys_only d → three_keys_only d' → full_block base →
  merge_overrides d base = merge_overrides d' base.
Proof.
  intros Hd Hd' (Hs & Hx & Hy). apply map_eq. intros k.
  destruct (decide (k = "scale")) as [-> | H1].
  { rewrite !merge_overrides_key by tauto. destruct Hs as [q ->]. reflexivity. }
  destruct (decide (k = "offset_x")) as [-> | H2].
  { rewrite !merge_overrides_key by tauto. destruct Hx as [z ->]. reflexivity. }
  destruct (decide (k = "offset_y")) as [-> | H3].
  { rewrite !merge_overrides_key by tauto. destruct Hy as [z ->]. reflexivity. }
  rewrite !merge_overrides_other by assumption. rewrite Hd, Hd' by assumption.
  reflexivity.
Qed.

(** X15. Once a character has a block of its own, the configured
    defaults no longer reach it: the loader fills the keys its base
    block leaves out with 1.0 and 0, so resolving gives what it would
    give with the built-in defaults. *)
Theorem loaded_entry_ignores_defaults P (payload : json) (ov : overrides)
    (character side : string) :
  load_character_overrides_data P payload = Ok ov →
  is_Some (characters ov !! normalize_token character) →
  resolve_character_override ov character side
  = resolve_character_override
      {| defaults := default_block; characters := characters ov |} character side.
Proof.
  intros Hload [e He].
  pose proof (load_defaults_three _ _ _ Hload) as Hthree.
  destruct (load_character_overrides_data_ok _ _ _ Hload) as [_ Hcs].
  destruct (Hcs _ _ He) as (b & l & r & Hent & Hb & _ & _).
  unfold resolve_character_override. simpl. rewrite He.
  assert (Hnonempty : e ≠ ∅).
  { rewrite Hent. intros Hempty. apply (f_equal (fun m => m !! "right")) in Hempty.
    rewrite lookup_insert_eq, lookup_empty in Hempty. discriminate. }
  rewrite !decide_False by exact Hnonempty.
  assert (Hbase : default ∅ (e !! "base") = b).
  { rewrite Hent. rewrite !lookup_insert_ne by discriminate.
    rewrite lookup_insert_eq. reflexivity. }
  rewrite Hbase.
  rewrite (merge_over_full (defaults ov) default_block b Hthree); [reflexivity| |exact Hb].
  intros k H1 H2 H3. unfold default_block.
  rewrite !lookup_insert_ne by congruence. apply lookup_empty.
Qed.

(** A payload whose defaults ask for half size, with an entry for Fox
    that only moves the sprite. *)
Definition half_size_payload : json :=
  JObj [("defaults", JObj [("scale", JFloat (1 # 2))]);
        ("characters", JObj [("Fox", JObj [("offset_y", JInt 4)])])].

Lemma loaded_entry_ignores_defaults_witness :
  resolve_character_override (loaded no_str_parsers half_size_payload) "fox" "Left"
  = resolve_character_override
      {| defaults := default_block;
         characters := characters (loaded no_str_parsers half_size_payload) |}
      "fox" "Left".
Proof.
  apply (loaded_entry_ignores_defaults no_str_parsers half_size_payload).
  - reflexivity.
  - vm_compute. eauto.
Defined.

Lemma load_characters_keys P items :
  ∀ acc cs,
    load_characters P items acc = Ok cs →
    (∀ k, is_Some (acc !! k) → is_Some (cs !! k))
    ∧ (∀ name bm, In (name, JObj bm) items → is_Some (cs !! normalize_token name)).
Proof.
  induction items as [|[name block] rest IH]; intros acc cs; simpl.
  - intros [= <-]. split; [auto | intros ? ? []].
  - destruct block;
      try (intros H; apply IH in H as [H1 H2]; split; [exact H1|];
           intros n bm [[= ] | Hin]; eauto).
    destruct (parse_override_block P (JObj members) false) as [b|]; [|discriminate].
    cbn [rbind].
    destruct (parse_override_block P (jget_none members "left") true) as [l|];
      [|discriminate].
    cbn [rbind].
    destruct (parse_override_block P (jget_none members "right") true) as [r|];
      [|discriminate].
    cbn [rbind]. intros H. apply IH in H as [H1 H2]. split.
    + intros k Hk. apply H1. rewrite lookup_insert. case_decide; eauto.
    + intros n bm [[= -> ->] | Hin]; [|eauto].
      apply H1. rewrite lookup_insert_eq. eauto.
Qed.

Lemma load_characters_tokens P items :
  ∀ acc cs,
    (∀ k, is_Some (acc !! k) → normalize_token k = k) →
    load_characters P items acc = Ok cs →
    ∀ k, is_Some (cs !! k) → normalize_token k = k.
Proof.
  induction items as [|[name block] rest IH]; intros acc cs Hacc; simpl.
  - intros [= <-]. exact Hacc.
  - destruct block; try (apply IH; exact Hacc).
    destruct (parse_override_block P (JObj members) false) as [b|]; [|discriminate].
    cbn [rbind].
    destruct (parse_override_block P (jget_none members "left") true) as [l|];
      [|discriminate].
    cbn [rbind].
    destruct (parse_override_block P (jget_none members "right") true) as [r|];
      [|discriminate].
    cbn [rbind]. apply IH. intros k. rewrite lookup_insert. case_decide.
    + intros _. subst k. apply normalize_token_idem.
    + apply Hacc.
Qed.

(** X16. Every character block of the payload can be found again: after
    loading, a character name that normalises like the name of a block
    (other letter case, punctuation or spacing) resolves through an
    entry that has its base, left and right blocks; and every key of the
    loaded table is a normalised token. *)
Theorem loaded_characters_reachable P (members items : list (string * json))
    (ov : overrides) (name character : string) (block : list (string * json)) :
  load_character_overrides_data P (JObj members) = Ok ov →
  jget_none members "characters" = JObj items →
  In (name, JObj block) items →
  normalize_token character = normalize_token name →
  (∃ e, characters ov !! normalize_token character = Some e
        ∧ is_Some (e !! "base") ∧ is_Some (e !! "left") ∧ is_Some (e !! "right"))
  ∧ ∀ k, is_Some (characters ov !! k) → normalize_token k = k.
Proof.
  intros Hload Hitems Hin Hname.
  destruct (load_character_overrides_data_ok _ _ _ Hload) as [_ Hok].
  simpl in Hload. rewrite Hitems in Hload.
  destruct (parse_override_block P (jget_none members "defaults") false) as [d|];
    [|discriminate].
  cbn [rbind] in Hload.
  assert (Htruthy : truthy (JObj items) = true).
  { destruct items; [destruct Hin | reflexivity]. }
  rewrite Htruthy in Hload. cbn [rbind] in Hload.
  destruct (load_characters P items ∅) as [cs|] eqn:Hcs; [|discriminate].
  cbn [rbind] in Hload. injection Hload as <-. simpl in *.
  split.
  - destruct (load_characters_keys _ _ _ _ Hcs) as [_ Hkeys].
    rewrite Hname. destruct (Hkeys _ _ Hin) as [e He]. exists e. split; [exact He|].
    destruct (Hok _ _ He) as (b & l & r & -> & _).
    rewrite !lookup_insert_ne by discriminate.
    repeat split; solve [rewrite ?lookup_insert_ne by discriminate;
                         rewrite lookup_insert_eq; eauto].
  - eapply load_characters_tokens; [|exact Hcs]. intros k [? Hk].
    rewrite lookup_empty in Hk. discriminate.
Qed.

Lemma loaded_characters_reachable_witness :
  (∃ e, characters (loaded no_str_parsers half_size_payload)
          !! normalize_token "F.O.X" = Some e
        ∧ is_Some (e !! "base") ∧ is_Some (e !! "left") ∧ is_Some (e !! "right"))
  ∧ ∀ k, is_Some (characters (loaded no_str_parsers half_size_payload) !! k) →
         normalize_token k = k.
Proof.
  apply (loaded_characters_reachable no_str_parsers
           [("defaults", JObj [("scale", JFloat (1 # 2))]);
            ("characters", JObj [("Fox", JObj [("offset_y", JInt 4)])])]
           [("Fox", JObj [("offset_y", JInt 4)])]
           (loaded no_str_parsers half_size_payload)
           "Fox" "F.O.X" [("offset_y", JInt 4)]).
  - reflexivity.
  - reflexivity.
  - left. reflexivity.
  - reflexivity.
Defined.

(** ** Sprite placement, continued *)

Section OutlineShift.

Variable lanczos : image -> Z -> Z -> Z -> Z -> rgba.

(** X17. Enabling the outline moves both draw origins up and to the
    left by exactly the outline pad, a non-negative number of pixels,
    and changes nothing else: the padding that outline synthesis adds
    around a sprite is cancelled and the sprite stays where it was. *)
Theorem outline_shifts_origin (width height outline_size : Z)
    (p1_image p2_image : image) (p1_override p2_override : gmap string pyval) :
  let on := place_sprites lanczos width height
              {| enabled := true; size := outline_size |}
              p1_image p2_image p1_override p2_override in
  let off := place_sprites lanczos width height
               {| enabled := false; size := outline_size |}
               p1_image p2_image p1_override p2_override in
  let pad :=
    Z.max 0 (scale_value outline_size (inject_Z height / inject_Z BASE_HEIGHT)) in
  0 ≤ pad
  ∧ p1_x on + pad = p1_x off ∧ p1_y on + pad = p1_y off
  ∧ p2_x on + pad = p2_x off ∧ p2_y on + pad = p2_y off
  ∧ p1_base_width on = p1_base_width off ∧ p1_base_height on = p1_base_height off
  ∧ p2_base_width on = p2_base_width off ∧ p2_base_height on = p2_base_height off.
Proof.
  intros on off pad. subst on off. unfold place_sprites.
  cbn [enabled size]. fold pad.
  destruct (apply_character_override lanczos p1_image p1_override _ _)
    as [[im1 ox1] oy1].
  destruct (apply_character_override lanczos p2_image p2_override _ _)
    as [[im2 ox2] oy2].
  cbn [p1_x p1_y p2_x p2_y p1_base_width p1_base_height p2_base_width p2_base_height].
  change (0 >? 0) with false. cbv iota.
  assert (Hpad : 0 ≤ pad) by (unfold pad; lia).
  destruct (Z.gtb_spec pad 0); repeat split; lia.
Qed.

End OutlineShift.

(** ** Listing the available colours *)

Definition leb_rel (a b : string) : Prop := String.leb a b = true.

Lemma insert_sorted_perm (s : string) (l : list string) :
  Permutation (s :: l) (insert_sorted s l).
Proof.
  induction l as [|x l IH]; simpl; [reflexivity|].
  destruct (String.leb s x); [reflexivity|].
  rewrite perm_swap. apply perm_skip, IH.
Qed.

Lemma sorted_perm (l : list string) : Permutation l (sorted l).
Proof.
  induction l as [|x l IH]; simpl; [reflexivity|].
  rewrite <- insert_sorted_perm. apply perm_skip, IH.
Qed.

Lemma insert_sorted_hd (a s : string) (l : list string) :
  HdRel leb_rel a l → leb_rel a s → HdRel leb_rel a (insert_sorted s l).
Proof.
  intros Hl Hs. destruct l as [|x l]; simpl.
  - constructor. exact Hs.
  - destruct (String.leb s x); constructor; [exact Hs|].
    inversion Hl; assumption.
Qed.

Lemma insert_sorted_sorted (s : string) (l : list string) :
  Sorted leb_rel l → Sorted leb_rel (insert_sorted s l).
Proof.
  induction 1 as [|x l Hl IH Hhd]; simpl.
  - repeat constructor.
  - destruct (String.leb s x) eqn:E.
    + constructor; [constructor; assumption|]. constructor. exact E.
    + constructor; [exact IH|]. apply insert_sorted_hd; [exact Hhd|].
      destruct (String.leb_total s x) as [H | H]; [congruence | exact H].
Qed.

Lemma sorted_sorted (l : list string) : Sorted leb_rel (sorted l).
Proof.
  induction l as [|x l IH]; simpl; [constructor|].
  apply insert_sorted_sorted, IH.
Qed.

Lemma substring_prefix (p q : string) :
  String.substring 0 (String.length p) (p ++ q) = p.
Proof.
  induction p as [|c p IH]; simpl.
  - destruct q; reflexivity.
  - change (String c p ++ q) with (String c (p ++ q)). simpl. now rewrite IH.
Qed.

Lemma substring_all (q : string) : String.substring 0 (String.length q) q = q.
Proof. induction q as [|c q IH]; simpl; [reflexivity | now rewrite IH]. Qed.

Lemma substring_suffix (p q : string) :
  String.substring (String.length p) (String.length q) (p ++ q) = q.
Proof.
  induction p as [|c p IH].
  - simpl String.length. change ("" ++ q) with q. apply substring_all.
  - change (String c p ++ q) with (String c (p ++ q)). simpl. exact IH.
Qed.

Lemma substring_split (m : nat) (s : string) :
  (m ≤ String.length s)%nat →
  s = String.substring 0 m s ++ String.substring m (String.length s - m) s.
Proof.
  revert m. induction s as [|c s IH]; intros m Hm.
  - simpl in Hm. assert (m = 0%nat) as -> by lia. reflexivity.
  - destruct m as [|m].
    + simpl. change ("" ++ ?x) with x. now rewrite substring_all.
    + simpl in Hm. simpl.
      change (String c ?a ++ ?b) with (String c (a ++ b)).
      f_equal. apply IH. lia.
Qed.

Lemma endswith_iff (s suffix : string) :
  endswith s suffix = true ↔ ∃ p, s = p ++ suffix.
Proof.
  unfold endswith. rewrite andb_true_iff, Nat.leb_le, String.eqb_eq. split.
  - intros [Hle Hsub].
    exists (String.substring 0 (String.length s - String.length suffix) s).
    pose proof (substring_split (String.length s - String.length suffix) s
                  ltac:(lia)) as Hsplit.
    replace (String.length s - (String.length s - String.length suffix))%nat
      with (String.length suffix) in Hsplit by lia.
    rewrite Hsub in Hsplit. exact Hsplit.
  - intros [p ->]. rewrite string_length_app. split; [lia|].
    replace (String.length p + String.length suffix - String.length suffix)%nat
      with (String.length p) by lia.
    apply substring_suffix.
Qed.

Lemma without_last_app (p suffix : string) :
  without_last (String.length suffix) (p ++ suffix) = p.
Proof.
  unfold without_last. rewrite string_length_app.
  replace (String.length p + String.length suffix - String.length suffix)%nat
    with (String.length p) by lia.
  apply substring_prefix.
Qed.

Lemma string_app_inv_tail (a b c : string) : a ++ c = b ++ c → a = b.
Proof.
  intros H. apply (f_equal chars) in H. rewrite !chars_app in H.
  apply app_inv_tail in H. apply chars_inj, H.
Qed.

(** X18. The colours listed in the "missing image" error are exactly the
    colours for which the directory holds a [" Left"] or a [" Right"]
    file (the name with that ending removed), each listed once, in
    ascending order. *)
Theorem available_vs_colors_listing (d : directory) :
  List.NoDup (available_vs_colors d)
  ∧ Sorted leb_rel (available_vs_colors d)
  ∧ ∀ c, In c (available_vs_colors d)
         ↔ ∃ f, In f (png_files d)
                ∧ (stem f = c ++ " Left" ∨ stem f = c ++ " Right").
Proof.
  unfold available_vs_colors.
  set (colors := flat_map _ (png_files d)).
  split; [|split].
  - eapply Permutation_NoDup; [apply sorted_perm|]. apply NoDup_nodup.
  - apply sorted_sorted.
  - intros c. rewrite <- (Permutation_in' eq_refl (sorted_perm _)).
    rewrite nodup_In. unfold colors. rewrite in_flat_map. split.
    + intros (f & Hf & Hc). exists f. split; [exact Hf|].
      destruct (endswith (stem f) " Left") eqn:El.
      * apply endswith_iff in El as [p Hp]. left.
        destruct Hc as [<- | []]. rewrite Hp at 1.
        rewrite Hp. change 5%nat with (String.length " Left").
        now rewrite without_last_app.
      * destruct (endswith (stem f) " Right") eqn:Er; [|destruct Hc].
        apply endswith_iff in Er as [p Hp]. right.
        destruct Hc as [<- | []]. rewrite Hp at 1.
        rewrite Hp. change 6%nat with (String.length " Right").
        now rewrite without_last_app.
    + intros (f & Hf & [Hs | Hs]); exists f; (split; [exact Hf|]).
      * assert (El : endswith (stem f) " Left" = true) by (apply endswith_iff; eauto).
        rewrite El, Hs. change 5%nat with (String.length " Left").
        rewrite without_last_app. left. reflexivity.
      * destruct (endswith (stem f) " Left") eqn:El.
        -- exfalso. apply endswith_iff in El as [p Hp]. rewrite Hs in Hp.
           apply (f_equal (fun s => rev (chars s))) in Hp.
           rewrite !chars_app, !rev_app_distr in Hp. simpl in Hp.
           discriminate Hp.
        -- assert (Er : endswith (stem f) " Right" = true) by (apply endswith_iff; eauto).
           rewrite Er, Hs. change 6%nat with (String.length " Right").
           rewrite without_last_app. left. reflexivity.
Qed.

(** *** Witnesses on the sample roots *)

Definition fox_dir : directory :=
  {| dir_name := "Fox"; png_files := [fox_left; fox_right; fox_green_left] |}.

Definition roy_left : png_file := {| stem := "Default Left"; content := solid_sprite 10 10 |}.
Definition roy_right : png_file := {| stem := "Default Right"; content := solid_sprite 10 10 |}.
Definition roy_dir : directory :=
  {| dir_name := "Roy"; png_files := [roy_right; roy_left] |}.
Definition roy_root : character_root :=
  {| root_path := "assets/melee/characters/vs_screen"; subdirs := [roy_dir] |}.

Lemma resolve_character_dir_match_witness :
  In fox_dir (subdirs sample_root)
  ∧ normalize_token (dir_name fox_dir) = normalize_token "fox"
  ∧ ((∃ e, In e (subdirs sample_root) ∧ dir_name e = "fox") → dir_name fox_dir = "fox").
Proof.
  apply (resolve_character_dir_match sample_root "fox" fox_dir). reflexivity.
Defined.

Lemma resolve_character_image_sound_witness :
  ∃ d, resolve_character_dir sample_root "fox" = Ok d
       ∧ In fox_left (png_files d)
       ∧ In "Default" (color_candidates "Blue")
       ∧ (true = true →
            "vs_screen" = "vs_screen" ∧ "Right" ≠ "Left"
            ∧ find_image_file d ("Default" ++ " Left") = Some fox_left)
       ∧ (true = false →
            find_image_file d
              (if String.eqb "vs_screen" "vs_screen"
               then "Default" ++ (if String.eqb "Right" "Left" then " Left" else " Right")
               else "Default") = Some fox_left).
Proof.
  apply (resolve_character_image_sound sample_root "fox" "Blue" "Right" "vs_screen"
           (Some 100) (Some 100) fox_left true "Default").
  reflexivity.
Defined.

Lemma roy_right_side_forced_witness :
  resolve_character_image roy_root "ROY" "Red" "Right" "vs_screen"
    (Some 100) (Some 100) = Ok (roy_left, true, "Default").
Proof.
  apply (roy_right_side_forced roy_root "ROY" "Red" (Some 100) (Some 100)
           roy_dir ["Red"] [] "Default" roy_left).
  - reflexivity.
  - reflexivity.
  - reflexivity.
  - intros c [<- | []]. reflexivity.
  - reflexivity.
Defined.

Lemma scale_to_fit_within_box_witness :
  ∃ out,
    scale_to_fit nearest (solid_sprite 100 50) 40 40 = Ok out
    ∧ 1 ≤ width out ≤ 40
    ∧ 1 ≤ height out ≤ 40.
Proof.
  apply (scale_to_fit_within_box nearest (solid_sprite 100 50) 40 40); simpl; lia.
Defined.


(** ** Output names *)

(** The characters of a slug: letters and digits, single underscores
    between them, none at either end. *)
Fixpoint slug_body (after_underscore : bool) (l : list ascii) : Prop :=
  match l with
  | [] => after_underscore = false
  | c :: rest =>
      (is_lower_alnum c = true ∧ slug_body false rest)
      ∨ (c = "_"%char ∧ after_underscore = false ∧ slug_body true rest)
  end.

Definition slug_shaped (s : string) : Prop :=
  s ≠ "" ∧ slug_body true (chars s).

Lemma alnum_char_class (c : ascii) :
  is_lower_alnum c = true →
  is_underscore c = false ∧ is_space c = false ∧ is_ascii c = true.
Proof.
  destruct c as [[] [] [] [] [] [] [] []]; intros H; try discriminate H;
    repeat split.
Qed.

Lemma drop_while_head_false f l :
  drop_while f l = [] ∨ ∃ c t, drop_while f l = c :: t ∧ f c = false.
Proof.
  induction l as [|x l IH]; simpl; [left; reflexivity|].
  destruct (f x) eqn:E; [exact IH|]. right. eauto.
Qed.

(** What [sub_runs] produces, seen from the front: letters, digits and
    single underscores. *)
Fixpoint runs_body (after_underscore : bool) (l : list ascii) : Prop :=
  match l with
  | [] => True
  | c :: rest =>
      (is_lower_alnum c = true ∧ runs_body false rest)
      ∨ (c = "_"%char ∧ after_underscore = false ∧ runs_body true rest)
  end.

Lemma sub_runs_body (b : bool) (cs : list ascii) : runs_body b (sub_runs b cs).
Proof.
  revert b. induction cs as [|c cs IH]; intros b; simpl; [exact I|].
  destruct (is_lower_alnum c) eqn:E.
  - simpl. left. split; [exact E | apply IH].
  - destruct b; [apply IH|]. simpl. right. repeat split. apply IH.
Qed.

Lemma runs_body_drop (l : list ascii) :
  runs_body false l → runs_body true (drop_while is_underscore l).
Proof.
  destruct l as [|c l]; simpl; [auto|].
  intros [[Ha Hr] | (-> & _ & Hr)].
  - destruct (alnum_char_class c Ha) as (-> & _). simpl. left. auto.
  - simpl. destruct l as [|c' l]; simpl in *; [exact I|].
    destruct Hr as [[Ha Hr] | (_ & Hf & _)]; [|discriminate].
    destruct (alnum_char_class c' Ha) as (-> & _). simpl. left. auto.
Qed.

Lemma runs_body_last (b : bool) (l : list ascii) (c : ascii) :
  runs_body b (l ++ [c]) → is_lower_alnum c = true ∨ c = "_"%char.
Proof.
  revert b. induction l as [|x l IH]; intros b; simpl.
  - intros [[Ha _] | (-> & _ & _)]; auto.
  - intros [[Ha Hr] | (-> & Hb & Hr)]; eauto.
Qed.

Lemma slug_body_snoc (b : bool) (l : list ascii) (c : ascii) :
  runs_body b (l ++ [c]) → is_lower_alnum c = true → slug_body b (l ++ [c]).
Proof.
  revert b. induction l as [|x l IH]; intros b; simpl.
  - intros _ Hc. left. auto.
  - intros [[Ha Hr] | (-> & Hb & Hr)] Hc; [left | right]; auto.
Qed.

Lemma runs_body_prefix (b : bool) (l k : list ascii) :
  runs_body b (l ++ k) → runs_body b l.
Proof.
  revert b. induction l as [|x l IH]; intros b; simpl; [auto|].
  intros [[Ha Hr] | (-> & Hb & Hr)]; [left | right]; eauto.
Qed.

Lemma strip_tail_shape (b : bool) (l : list ascii) :
  runs_body b l →
  rev (drop_while is_underscore (rev l)) = []
  ∨ slug_body b (rev (drop_while is_underscore (rev l))).
Proof.
  intros Hl.
  destruct (drop_while_split is_underscore (rev l)) as [ws Hws].
  destruct (drop_while_head_false is_underscore (rev l)) as [-> | (c & t & E & Hc)];
    [left; reflexivity|].
  right. rewrite E in *.
  assert (Hl' : l = ((rev t ++ [c]) ++ rev ws)%list).
  { rewrite <- (rev_involutive l), Hws, rev_app_distr. simpl. reflexivity. }
  simpl. rewrite Hl' in Hl. apply runs_body_prefix in Hl.
  apply slug_body_snoc; [exact Hl|].
  apply runs_body_last in Hl as [Ha | ->]; [exact Ha | discriminate].
Qed.

Lemma slugify_shaped (text : string) : slug_shaped (slugify text).
Proof.
  unfold slugify.
  set (cs := sub_runs false _).
  destruct (String.eqb_spec (strip_underscores (str cs)) "") as [_ | Hne].
  - split; [discriminate|]. vm_compute. tauto.
  - split; [exact Hne|]. unfold strip_underscores in *. rewrite chars_str in *.
    pose proof (runs_body_drop cs (sub_runs_body false _)) as Hbody.
    destruct (strip_tail_shape true _ Hbody) as [Hempty | Hshape].
    + exfalso. apply Hne. rewrite Hempty. reflexivity.
    + rewrite chars_str. exact Hshape.
Qed.

(** A slug is left alone by every step of [slugify]. *)
Lemma slug_body_alnum_or_underscore (b : bool) (l : list ascii) :
  slug_body b l →
  Forall (fun c => is_lower_alnum c = true ∨ c = "_"%char) l.
Proof.
  revert b. induction l as [|c l IH]; intros b; simpl; [constructor|].
  intros [[Ha Hr] | (-> & _ & Hr)]; constructor; eauto.
Qed.

Lemma slug_body_sub_runs (b : bool) (l : list ascii) :
  slug_body b l → sub_runs false l = l.
Proof.
  revert b. induction l as [|c l IH]; intros b; simpl; [reflexivity|].
  intros [[Ha Hr] | (-> & _ & Hr)].
  - rewrite Ha. f_equal. exact (IH false Hr).
  - simpl. f_equal. destruct l as [|c' l]; [reflexivity|]. simpl in *.
    destruct Hr as [[Ha Hr] | (_ & Hf & _)]; [|discriminate].
    rewrite Ha. f_equal. specialize (IH true (or_introl (conj Ha Hr))).
    rewrite Ha in IH. injection IH as IH. exact IH.
Qed.

Lemma slug_body_head (l : list ascii) :
  slug_body true l → ∃ c t, l = c :: t ∧ is_lower_alnum c = true.
Proof.
  destruct l as [|c l]; simpl; [discriminate|].
  intros [[Ha _] | (_ & Hf & _)]; [eauto | discriminate].
Qed.

Lemma slug_body_last (b : bool) (l : list ascii) :
  slug_body b l → l ≠ [] → ∃ t c, l = (t ++ [c])%list ∧ is_lower_alnum c = true.
Proof.
  revert b. induction l as [|x l IH]; intros b; simpl; [contradiction|].
  intros H _. destruct l as [|y l].
  - destruct H as [[Ha _] | (_ & _ & Hr)]; [|discriminate].
    exists [], x. auto.
  - assert (Hr : ∃ b', slug_body b' (y :: l)).
    { destruct H as [[_ Hr] | (_ & _ & Hr)]; eauto. }
    destruct Hr as [b' Hr].
    destruct (IH b' Hr ltac:(discriminate)) as (t & c & -> & Hc).
    exists (x :: t), c. auto.
Qed.

Lemma slug_fixed (s : string) : slug_shaped s → slugify s = s.
Proof.
  intros [Hne Hbody].
  assert (Hall := slug_body_alnum_or_underscore _ _ Hbody).
  destruct (slug_body_head _ Hbody) as (c0 & t0 & Hc0 & Ha0).
  destruct (slug_body_last _ _ Hbody) as (t1 & c1 & Hc1 & Ha1).
  { rewrite Hc0. discriminate. }
  destruct (alnum_char_class c0 Ha0) as (Hu0 & Hs0 & _).
  destruct (alnum_char_class c1 Ha1) as (Hu1 & Hs1 & _).
  assert (Hstrip : strip s = s).
  { unfold strip, lstrip, rstrip. apply chars_inj. rewrite !chars_str.
    rewrite Hc0. simpl. rewrite Hs0. rewrite <- Hc0, Hc1.
    rewrite rev_app_distr. simpl. rewrite Hs1.
    rewrite <- (rev_involutive (t1 ++ [c1])), rev_app_distr. reflexivity. }
  assert (Hlower : map lower_char (chars s) = chars s).
  { clear -Hall. induction Hall as [|c l [Ha | ->] _ IH]; simpl; [reflexivity| |].
    - destruct (lower_alnum_char c Ha) as [-> _]. now rewrite IH.
    - now rewrite IH. }
  assert (Hascii : List.filter is_ascii (chars s) = chars s).
  { clear -Hall. induction Hall as [|c l [Ha | ->] _ IH]; simpl; [reflexivity| |].
    - destruct (alnum_char_class c Ha) as (_ & _ & ->). now rewrite IH.
    - now rewrite IH. }
  unfold slugify. rewrite Hstrip. unfold lower. rewrite !chars_str, Hlower, Hascii.
  rewrite (slug_body_sub_runs true _ Hbody). unfold strip_underscores. rewrite chars_str.
  assert (Hfinal : rev (drop_while is_underscore
                          (rev (drop_while is_underscore (chars s)))) = chars s).
  { rewrite Hc0. simpl. rewrite Hu0. rewrite <- Hc0, Hc1.
    rewrite rev_app_distr. simpl. rewrite Hu1.
    rewrite <- (rev_involutive (t1 ++ [c1])), rev_app_distr. reflexivity. }
  rewrite Hfinal, str_chars.
  destruct (String.eqb_spec s ""); [contradiction | reflexivity].
Qed.

(** X19. [slugify] always yields a usable file stem: not empty, made of
    [a-z0-9] with single underscores between them and none at either
    end; and a string of that form is its own slug, so [slugify] is
    idempotent. *)
Theorem slugify_slug (text : string) :
  slug_shaped (slugify text)
  ∧ Forall (fun c => is_lower_alnum c = true ∨ c = "_"%char) (chars (slugify text))
  ∧ slugify (slugify text) = slugify text
  ∧ ∀ s, slug_shaped s → slugify s = s.
Proof.
  pose proof (slugify_shaped text) as Hs.
  split; [exact Hs|]. split; [|split].
  - eapply slug_body_alnum_or_underscore, Hs.
  - apply slug_fixed, Hs.
  - apply slug_fixed.
Qed.

(** ** The override editor *)

Lemma jget_jset_eq members key value : jget (jset members key value) key = Some value.
Proof.
  induction members as [|[k v] rest IH]; simpl.
  - rewrite String.eqb_refl. reflexivity.
  - destruct (String.eqb_spec k key) as [-> | Hne]; simpl.
    + rewrite String.eqb_refl. reflexivity.
    + destruct (String.eqb_spec k key); [contradiction | exact IH].
Qed.

Lemma jget_jset_ne members key value other :
  key ≠ other → jget (jset members key value) other = jget members other.
Proof.
  intros Hne. induction members as [|[k v] rest IH]; simpl.
  - destruct (String.eqb_spec key other); [contradiction | reflexivity].
  - destruct (String.eqb_spec k key) as [-> | Hk]; simpl.
    + destruct (String.eqb_spec key other); [contradiction | reflexivity].
    + destruct (String.eqb k other); [reflexivity | exact IH].
Qed.

Lemma jget_jpop_ne members key other :
  key ≠ other → jget (jpop members key) other = jget members other.
Proof.
  intros Hne. induction members as [|[k v] rest IH]; simpl; [reflexivity|].
  destruct (String.eqb_spec k key) as [-> | Hk]; simpl.
  - destruct (String.eqb_spec key other); [contradiction | reflexivity].
  - destruct (String.eqb k other); [reflexivity | exact IH].
Qed.

Lemma jget_in members key value : jget members key = Some value → In (key, value) members.
Proof.
  induction members as [|[k v] rest IH]; simpl; [discriminate|].
  destruct (String.eqb_spec k key) as [-> | Hne].
  - intros [= ->]. left. reflexivity.
  - intros H. right. apply IH, H.
Qed.

Lemma in_jset members key value n j :
  In (n, j) (jset members key value) → n = key ∨ In (n, j) members.
Proof.
  induction members as [|[k v] rest IH]; simpl.
  - intros [[= <- <-] | []]. left. reflexivity.
  - destruct (String.eqb_spec k key) as [-> | Hne]; simpl.
    + intros [[= <- <-] | Hin]; auto.
    + intros [Heq | Hin]; [auto|]. destruct (IH Hin); auto.
Qed.

Lemma keys_jset members key value :
  NoDup (map fst members) → NoDup (map fst (jset members key value)).
Proof.
  induction members as [|[k v] rest IH]; simpl; intros Hnd.
  - constructor; [apply not_elem_of_nil | constructor].
  - apply NoDup_cons in Hnd as [Hk Hrest].
    destruct (String.eqb_spec k key) as [-> | Hne]; simpl.
    + apply NoDup_cons. auto.
    + apply NoDup_cons. split; [|apply IH, Hrest].
      intros Hin. apply list_elem_of_In, in_map_iff in Hin as ([n j] & Hn & Hin).
      simpl in Hn. subst n. apply in_jset in Hin as [-> | Hin]; [contradiction|].
      apply Hk. apply list_elem_of_In, in_map_iff. exists (k, j). auto.
Qed.

Lemma ensure_object_has members key : jhas (ensure_object members key) key = true.
Proof.
  unfold ensure_object. destruct (jhas members key) eqn:E; [exact E|].
  unfold jhas. rewrite jget_jset_eq. reflexivity.
Qed.

Lemma in_ensure_object members key n j :
  In (n, j) (ensure_object members key) → n = key ∨ In (n, j) members.
Proof.
  unfold ensure_object. destruct (jhas members key); [auto | apply in_jset].
Qed.

Lemma keys_ensure_object members key :
  NoDup (map fst members) → NoDup (map fst (ensure_object members key)).
Proof.
  unfold ensure_object. destruct (jhas members key); [auto | apply keys_jset].
Qed.

Lemma jget_ensure_object_ne members key other :
  key ≠ other → jget (ensure_object members key) other = jget members other.
Proof.
  intros Hne. unfold ensure_object.
  destruct (jhas members key); [reflexivity | apply jget_jset_ne, Hne].
Qed.

(** Items whose names normalise to other tokens leave a token's entry
    alone. *)
Lemma load_characters_preserve P (tok : string) items :
  ∀ acc cs,
    (∀ n j, In (n, j) items → normalize_token n ≠ tok) →
    load_characters P items acc = Ok cs → cs !! tok = acc !! tok.
Proof.
  induction items as [|[name block] rest IH]; intros acc cs Hother; simpl.
  - intros [= <-]. reflexivity.
  - assert (Hrest : ∀ n j, In (n, j) rest → normalize_token n ≠ tok).
    { intros n j Hin. apply (Hother n j). right. exact Hin. }
    destruct block; try (apply IH; exact Hrest).
    destruct (parse_override_block P (JObj members) false) as [b|]; [|discriminate].
    cbn [rbind].
    destruct (parse_override_block P (jget_none members "left") true) as [l|];
      [|discriminate].
    cbn [rbind].
    destruct (parse_override_block P (jget_none members "right") true) as [r|];
      [|discriminate].
    cbn [rbind]. intros H. rewrite (IH _ _ Hrest H).
    apply lookup_insert_ne. apply (Hother name (JObj members)). left. reflexivity.
Qed.

(** The entry of a block whose name is the only one with its token. *)
Lemma load_characters_unique P (name : string) (bm : list (string * json)) items :
  ∀ acc cs,
    NoDup (map fst items) →
    In (name, JObj bm) items →
    (∀ n j, In (n, j) items → normalize_token n = normalize_token name → n = name) →
    load_characters P items acc = Ok cs →
    ∃ b l r,
      parse_override_block P (jget_none bm "left") true = Ok l
      ∧ parse_override_block P (jget_none bm "right") true = Ok r
      ∧ cs !! normalize_token name
        = Some (<["right" := r]> (<["left" := l]> (<["base" := b]> ∅))).
Proof.
  induction items as [|[n block] rest IH]; intros acc cs Hnd Hin Huniq; [destruct Hin|].
  simpl in Hnd. apply NoDup_cons in Hnd as [Hn Hrest].
  assert (Huniq' : ∀ n' j, In (n', j) rest →
                           normalize_token n' = normalize_token name → n' = name).
  { intros n' j Hin'. apply (Huniq n' j). right. exact Hin'. }
  destruct Hin as [[= -> ->] | Hin].
  - cbn [load_characters].
    destruct (parse_override_block P (JObj bm) false) as [b|]; [|discriminate].
    cbn [rbind].
    destruct (parse_override_block P (jget_none bm "left") true) as [l|];
      [|discriminate].
    cbn [rbind].
    destruct (parse_override_block P (jget_none bm "right") true) as [r|];
      [|discriminate].
    cbn [rbind]. intros H. exists b, l, r. split; [reflexivity|]. split; [reflexivity|].
    assert (Hother : ∀ n' j, In (n', j) rest →
                             normalize_token n' ≠ normalize_token name).
    { intros n' j Hin' Htok. pose proof (Huniq' n' j Hin' Htok) as ->.
      apply Hn. apply list_elem_of_In, in_map_iff. exists (name, j). auto. }
    rewrite (load_characters_preserve P (normalize_token name) _ _ _ Hother H).
    apply lookup_insert_eq.
  - simpl. destruct block; try (apply IH; assumption).
    destruct (parse_override_block P (JObj members) false) as [b|]; [|discriminate].
    cbn [rbind].
    destruct (parse_override_block P (jget_none members "left") true) as [l|];
      [|discriminate].
    cbn [rbind].
    destruct (parse_override_block P (jget_none members "right") true) as [r|];
      [|discriminate].
    cbn [rbind]. apply IH; assumption.
Qed.

Lemma parse_side_block P (sb : list (string * json)) (q : Q) (z : Z) blk :
  jget sb "scale" = Some (JFloat q) → jget sb "offset_x" = Some (JInt z) →
  parse_override_block P (JObj sb) true = Ok blk →
  blk !! "scale" = Some (VFloat q) ∧ blk !! "offset_x" = Some (VInt z).
Proof.
  intros Hs Hx. simpl. unfold parse_key, jhas. rewrite Hs, Hx. cbn.
  destruct (jget sb "offset_y") as [j|]; cbn.
  - destruct (py_int P j); cbn; [|discriminate].
    intros [= <-]. split; reflexivity.
  - intros [= <-]. split; reflexivity.
Qed.

Lemma resolve_side_values (ov : overrides) (character side : string)
    (left_side : bool) e blk (q : Q) (z : Z) :
  lower side = (if left_side then "left" else "right") →
  characters ov !! normalize_token character = Some e → e ≠ ∅ →
  e !! (if left_side then "left" else "right") = Some blk →
  blk !! "scale" = Some (VFloat q) → blk !! "offset_x" = Some (VInt z) →
  resolve_character_override ov character side !! "scale" = Some (VFloat q)
  ∧ resolve_character_override ov character side !! "offset_x" = Some (VInt z).
Proof.
  intros Hside He Hne Hblk Hs Hx. unfold resolve_character_override.
  rewrite He, decide_False by exact Hne.
  assert (Hsel : (if String.eqb (lower side) "left"
                  then default ∅ (e !! "left") else default ∅ (e !! "right")) = blk).
  { rewrite Hside. destruct left_side; simpl; rewrite Hblk; reflexivity. }
  rewrite Hsel, Hx. split.
  - rewrite lookup_insert_ne by discriminate.
    rewrite merge_overrides_key by tauto. rewrite Hs. reflexivity.
  - rewrite lookup_insert_eq. unfold get_offset_x.
    rewrite merge_overrides_offset_x, Hx. reflexivity.
Qed.

Lemma side_block_after_set (sb : list (string * json)) (q : Q) (z r : Z)
    (mirror use_other_side : bool) :
  let sb1 := jpop (jset (jset (jset sb "scale" (JFloat q)) "offset_x" (JInt z))
                        "raise" (JInt r)) "mirror_left" in
  let sb2 := if mirror then jset sb1 "mirror" (JBool true) else jpop sb1 "mirror" in
  let sb3 := if use_other_side then jset sb2 "use_other_side" (JBool true)
             else jpop sb2 "use_other_side" in
  jget sb3 "scale" = Some (JFloat q) ∧ jget sb3 "offset_x" = Some (JInt z).
Proof.
  intros sb1 sb2 sb3. subst sb1 sb2 sb3.
  destruct mirror, use_other_side; split;
    repeat first [ rewrite jget_jset_ne by discriminate
                 | rewrite jget_jpop_ne by discriminate
                 | apply jget_jset_eq ].
Qed.

(** X20. The editor's round trip.  After [set_values] has stored a scale
    and an [offset_x] for a character and a side, whatever the other
    arguments, and the working copy has been parsed again, resolving
    that character and side returns exactly that scale and that
    [offset_x], unflipped, provided the character table has no other
    key that normalises to the same token. *)
Theorem set_values_round_trip P (overrides_raw raw' : list (string * json))
    (character side : string) (scale : Q) (offset_x raise_val : Z)
    (mirror use_other_side : bool) (ov : overrides) :
  lower side = "left" ∨ lower side = "right" →
  (∀ chars, jget overrides_raw "characters" = Some (JObj chars) →
            NoDup (map fst chars)
            ∧ ∀ n j, In (n, j) chars →
                     normalize_token n = normalize_token character → n = character) →
  set_values overrides_raw character side scale offset_x raise_val
    mirror use_other_side = Ok raw' →
  load_character_overrides_data P (JObj raw') = Ok ov →
  resolve_character_override ov character side !! "scale" = Some (VFloat scale)
  ∧ resolve_character_override ov character side !! "offset_x" = Some (VInt offset_x).
Proof.
  intros Hside Hcond Hset Hload. unfold set_values in Hset.
  set (raw1 := ensure_object overrides_raw "characters") in *.
  destruct (jget_none raw1 "characters") as [| | | | | |chars0] eqn:Hchars;
    try discriminate.
  (* the character table before the call *)
  assert (Hchars0 : NoDup (map fst chars0)
                    ∧ ∀ n j, In (n, j) chars0 →
                             normalize_token n = normalize_token character →
                             n = character).
  { subst raw1. unfold ensure_object, jget_none in Hchars.
    destruct (jhas overrides_raw "characters") eqn:Hhas.
    - apply Hcond. destruct (jget overrides_raw "characters"); [|discriminate].
      congruence.
    - rewrite jget_jset_eq in Hchars. injection Hchars as <-.
      split; [constructor | intros n j []]. }
  destruct Hchars0 as [Hnd0 Huniq0].
  set (chars1 := ensure_object chars0 character) in *.
  destruct (jget_none chars1 character) as [| | | | | |cb0] eqn:Hcb; try discriminate.
  set (cb1 := ensure_object cb0 (lower side)) in *.
  destruct (jget_none cb1 (lower side)) as [| | | | | |sb0] eqn:Hsb; try discriminate.
  injection Hset as <-.
  match type of Hload with
  | context [jset cb1 (lower side) (JObj ?sb)] => set (sb' := sb) in *
  end.
  set (cb' := jset cb1 (lower side) (JObj sb')) in *.
  set (chars' := jset chars1 character (JObj cb')) in *.
  (* loading the new working copy *)
  simpl in Hload.
  destruct (parse_override_block P _ false) as [d|]; [|discriminate].
  cbn [rbind] in Hload.
  assert (Hget : jget_none (jset raw1 "characters" (JObj chars')) "characters"
                 = JObj chars').
  { unfold jget_none. rewrite jget_jset_eq. reflexivity. }
  rewrite Hget in Hload.
  assert (Hin : In (character, JObj cb') chars').
  { apply jget_in. apply jget_jset_eq. }
  assert (Htruthy : truthy (JObj chars') = true).
  { destruct chars'; [destruct Hin | reflexivity]. }
  rewrite Htruthy in Hload. cbn [rbind] in Hload.
  destruct (load_characters P chars' ∅) as [cs|] eqn:Hcs; [|discriminate].
  cbn [rbind] in Hload. injection Hload as <-.
  destruct (load_characters_unique P character cb' chars' ∅ cs) as (b & l & r & Hl & Hr & He).
  { apply keys_jset, keys_ensure_object, Hnd0. }
  { exact Hin. }
  { intros n j Hnj Htok. apply in_jset in Hnj as [-> | Hnj]; [reflexivity|].
    apply in_ensure_object in Hnj as [-> | Hnj]; [reflexivity|].
    exact (Huniq0 n j Hnj Htok). }
  { exact Hcs. }
  (* the side block that was written *)
  destruct (side_block_after_set sb0 scale offset_x raise_val mirror use_other_side)
    as [Hscale Hoffset].
  fold sb' in Hscale, Hoffset.
  assert (Hnonempty : <["right" := r]> (<["left" := l]> (<["base" := b]> ∅))
                      ≠ (∅ : gmap string (gmap string pyval))).
  { intros Hempty. apply (f_equal (fun m => m !! "right")) in Hempty.
    rewrite lookup_insert_eq, lookup_empty in Hempty. discriminate. }
  destruct Hside as [Hside | Hside].
  - assert (Hleft : jget_none cb' "left" = JObj sb').
    { unfold jget_none, cb'. rewrite Hside, jget_jset_eq. reflexivity. }
    rewrite Hleft in Hl.
    destruct (parse_side_block P sb' scale offset_x l Hscale Hoffset Hl) as [H1 H2].
    eapply (resolve_side_values _ character side true);
      [exact Hside | exact He | exact Hnonempty | | exact H1 | exact H2].
    rewrite lookup_insert_ne by discriminate. apply lookup_insert_eq.
  - assert (Hright : jget_none cb' "right" = JObj sb').
    { unfold jget_none, cb'. rewrite Hside, jget_jset_eq. reflexivity. }
    rewrite Hright in Hr.
    destruct (parse_side_block P sb' scale offset_x r Hscale Hoffset Hr) as [H1 H2].
    eapply (resolve_side_values _ character side false);
      [exact Hside | exact He | exact Hnonempty | | exact H1 | exact H2].
    apply lookup_insert_eq.
Qed.

Definition fox_edit : list (string * json) :=
  [("characters",
    JObj [("Fox",
           JObj [("left",
                  JObj [("scale", JFloat (3 # 2)); ("offset_x", JInt 40);
                        ("raise", JInt 0); ("mirror", JBool true)])])])].

Lemma set_values_round_trip_witness :
  resolve_character_override (loaded no_str_parsers (JObj fox_edit)) "Fox" "Left"
    !! "scale" = Some (VFloat (3 # 2))
  ∧ resolve_character_override (loaded no_str_parsers (JObj fox_edit)) "Fox" "Left"
      !! "offset_x" = Some (VInt 40).
Proof.
  apply (set_values_round_trip no_str_parsers [] fox_edit "Fox" "Left" (3 # 2) 40 0
           true false).
  - left. reflexivity.
  - intros chars H. discriminate H.
  - reflexivity.
  - reflexivity.
Defined.

(** ** Truncation, continued *)

Section TruncationLongest.

Variable text_width : Z -> string -> Z.

(** X21. [truncate_text] keeps as much as it can.  When the text is too
    wide and some prefix it tries (the text itself, or a prefix that does
    not end in whitespace) fits together with the ellipsis, the result is
    a prefix of the text at least that long followed by the ellipsis, and
    it fits the width. *)
Theorem truncate_text_longest (text p : string) (font max_width : Z) :
  max_width < text_width font text →
  p ≠ "" → is_prefix_of p text → (p = text ∨ rstrip p = p) →
  text_width font (p ++ "...") ≤ max_width →
  ∃ kept,
    truncate_text text_width text font max_width = kept ++ "..."
    ∧ is_prefix_of kept text
    ∧ (String.length p ≤ String.length kept)%nat
    ∧ text_width font (kept ++ "...") ≤ max_width.
Proof.
  intros Hwide Hp Hpre Hkind Hfits. unfold truncate_text.
  destruct (Z.leb_spec (text_width font text) max_width); [lia|].
  destruct (truncate_loop_spec text_width font max_width (String.length text) text
              (le_n _)) as (Hkept & Hend & Hmax).
  set (kept := truncate_loop text_width font max_width (String.length text) text) in *.
  assert (Hlen : (String.length p ≤ String.length kept)%nat).
  { destruct (Nat.le_gt_cases (String.length p) (String.length kept)) as [Hle | Hlt];
      [exact Hle|].
    exfalso. exact (Hmax p Hp Hpre Hkind Hlt Hfits). }
  assert (Hne : kept ≠ "").
  { intros Hempty. rewrite Hempty in Hlen. destruct p; [contradiction|].
    simpl in Hlen. lia. }
  destruct (String.eqb_spec kept "") as [Hempty | _]; [contradiction|].
  exists kept. split; [reflexivity|]. split; [exact Hkept|]. split; [exact Hlen|].
  destruct Hend as [Hempty | Hfit]; [contradiction | exact Hfit].
Qed.

End TruncationLongest.

Lemma truncate_text_longest_witness :
  ∃ kept,
    truncate_text fixed_pitch "Grand Finals" 10 90 = kept ++ "..."
    ∧ is_prefix_of kept "Grand Finals"
    ∧ (String.length "Grand" ≤ String.length kept)%nat
    ∧ fixed_pitch 10 (kept ++ "...") ≤ 90.
Proof.
  apply (truncate_text_longest fixed_pitch "Grand Finals" "Grand" 10 90).
  - vm_compute. reflexivity.
  - discriminate.
  - exists " Finals". reflexivity.
  - right. reflexivity.
  - vm_compute. discriminate.
Defined.
